(** * Beverage Family genealogy application: lookup, ancestry graph, timeline

    A shallow embedding of [app.py].  The records of [people.json] and
    [events.json] are Python dicts; they are modelled as finite maps from
    field names to field values.  A field may be absent from a record.

    Python strings are modelled by [string] (sequences of 8-bit characters),
    compared character by character.  Python integers are [Z]. *)

From Stdlib Require Import ZArith String Ascii List Permutation Sorted OrdersEx.
From stdpp Require Import gmap strings list fin_maps sets sorting.

#[local] Set Warnings "-clear-no-such-hyp".

Local Open Scope string_scope.
Local Open Scope Z_scope.

(** ** Data model *)

(** The values held by the fields the application reads ([id], [full_name],
    [parents], [date]): JSON [null], a string, or a list of strings. *)
Inductive value :=
| VNull
| VStr (s : string)
| VList (l : list string).

(** A record ([Dict]): field name to value. *)
Abbreviation dict := (gmap string value).

#[global] Instance value_eq_dec : EqDecision value.
Proof. solve_decision. Defined.

(** The exceptions the modelled code can raise. *)
Inductive exn :=
| KeyError (key : string)
| TypeError
| FileNotFoundError
| PermissionError
| UnicodeDecodeError
| JSONDecodeError (cause : string).

(** Outcome of a call: a returned value, a propagating exception, or an
    exhausted recursion budget (only for the fuel-indexed traversal). *)
Inductive outcome (A : Type) :=
| Done (a : A)
| Raised (e : exn)
| OutOfFuel.

Arguments Done {A} a.
Arguments Raised {A} e.
Arguments OutOfFuel {A}.

#[global] Instance outcome_ret : MRet outcome := @Done.

#[global] Instance outcome_bind : MBind outcome := fun A B k m =>
  match m with
  | Done a => k a
  | Raised e => Raised e
  | OutOfFuel => OutOfFuel
  end.

(** [d[key]]: indexing raises [KeyError] on a missing key. *)
Definition index (d : dict) (key : string) : outcome value :=
  match d !! key with
  | Some v => Done v
  | None => Raised (KeyError key)
  end.

(** [d.get(key) == s] for a string [s]: [None] and the non-string values
    differ from every string. *)
Definition get_equals (d : dict) (key : string) (s : string) : bool :=
  match d !! key with
  | Some (VStr t) => String.eqb t s
  | _ => false
  end.

(** Truth value of [get_person_by_id]'s result in [if p:]: [None] and the
    empty dict are false. *)
Definition truthy (p : option dict) : bool :=
  match p with
  | Some d => negb (bool_decide (d = ∅))
  | None => false
  end.

(** ** Lookup service *)

(** [get_person_by_id]: linear scan, first record whose [id] equals
    [person_id]. *)
Fixpoint get_person_by_id (people : list dict) (person_id : string) : option dict :=
  match people with
  | [] => None
  | person :: rest =>
      if get_equals person "id" person_id then Some person
      else get_person_by_id rest person_id
  end.

(** ["?profile=" + v]: concatenation of a string with a non-string raises
    [TypeError]. *)
Definition concat_str (prefix : string) (v : value) : outcome string :=
  match v with
  | VStr s => Done (prefix ++ s)
  | _ => Raised TypeError
  end.

(** [link_person], the closure of [render_person_profile].  [py_str] is
    Python's [str], applied by the f-string to the [full_name] value. *)
Definition link_person (py_str : value -> string) (people : list dict)
    (pid : string) : outcome string :=
  match get_person_by_id people pid with
  | Some p =>
      if bool_decide (p = ∅) then Done pid
      else
        i ← index p "id";
        profile_query ← concat_str "?profile=" i;
        name ← index p "full_name";
        Done ("[" ++ py_str name ++ "](" ++ profile_query ++ ")")
  | None => Done pid
  end.

(** ** Tree builder *)

(** The [Digraph] is its [body]: the statements requested from it, in call
    order.  [graph.attr(rankdir='TB')], [graph.node(name, label)] and
    [graph.edge(tail, head)] each append one statement. *)
Inductive stmt :=
| Attr (name val : string)
| Node (name : string) (label : value)
| Edge (tail head : string).

#[global] Instance stmt_eq_dec : EqDecision stmt.
Proof. solve_decision. Defined.

(** The state shared by the calls of [add_node]: the [visited] set and the
    graph under construction. *)
Record build_state := BuildState {
  visited : gset string;
  body : list stmt
}.

Definition mark (pid : string) (st : build_state) : build_state :=
  BuildState ({[pid]} ∪ visited st) (body st).

Definition emit (s : stmt) (st : build_state) : build_state :=
  BuildState (visited st) (body st ++ [s]).

(** [d.get(key, default)]. *)
Definition get_default (d : dict) (key : string) (default : value) : value :=
  match d !! key with
  | Some v => v
  | None => default
  end.

Definition chars (s : string) : list string :=
  map (fun c => String c EmptyString) (list_ascii_of_string s).

(** [for x in v]: a list yields its elements, a string its characters,
    [None] is not iterable. *)
Definition iterate (v : value) : outcome (list string) :=
  match v with
  | VList l => Done l
  | VStr s => Done (chars s)
  | VNull => Raised TypeError
  end.

(** A [for] loop whose body updates the shared state and may raise. *)
Fixpoint for_each {S : Type} (step : string -> S -> outcome S)
    (items : list string) (st : S) : outcome S :=
  match items with
  | [] => Done st
  | x :: rest => st' ← step x st; for_each step rest st'
  end.

(** [add_node], the closure of [build_graph]; [fuel] bounds the depth of
    the recursion. *)
Fixpoint add_node (people : list dict) (max_generations : Z) (fuel : nat)
    (pid : string) (generation : Z) (st : build_state) : outcome build_state :=
  match fuel with
  | O => OutOfFuel
  | S fuel' =>
      if bool_decide (pid ∈ visited st) || (generation >? max_generations)
      then Done st
      else
        let st := mark pid st in
        match get_person_by_id people pid with
        | Some person =>
            if bool_decide (person = ∅) then Done (emit (Node pid (VStr pid)) st)
            else
              label ← index person "full_name";
              let st := emit (Node pid label) st in
              parents ← iterate (get_default person "parents" (VList []));
              for_each
                (fun parent_id st =>
                   add_node people max_generations fuel' parent_id
                     (generation + 1) (emit (Edge parent_id pid) st))
                parents st
        | None => Done (emit (Node pid (VStr pid)) st)
        end
  end.

Definition initial_state : build_state :=
  BuildState ∅ [Attr "rankdir" "TB"].

Definition build_graph_fuel (fuel : nat) (people : list dict)
    (start_id : string) (max_generations : Z) : outcome (list stmt) :=
  st ← add_node people max_generations fuel start_id 0 initial_state;
  Done (body st).

(** The identifiers a record names as parents. *)
Definition parent_ids (person : dict) : list string :=
  match iterate (get_default person "parents" (VList [])) with
  | Done l => l
  | _ => []
  end.

(** Every identifier [add_node] can be called on: the start and the parents
    named by some record. *)
Definition known_ids (people : list dict) (start_id : string) : gset string :=
  {[start_id]} ∪ list_to_set (concat (map parent_ids people)).

(** [build_graph], with a recursion budget of one call per known identifier
    and one more (enough by [build_graph_fuel_enough] below). *)
Definition build_graph (people : list dict) (start_id : string)
    (max_generations : Z) : outcome (list stmt) :=
  build_graph_fuel (S (size (known_ids people start_id))) people start_id
    max_generations.

Definition node_names (g : list stmt) : list string :=
  omap (fun s => match s with Node n _ => Some n | _ => None end) g.

Definition edges (g : list stmt) : list (string * string) :=
  omap (fun s => match s with Edge t h => Some (t, h) | _ => None end) g.

(** ** Timeline formatter *)

(** The sort key of [render_timeline]: [e.get("date", "")]. *)
Definition date_key (e : dict) : value := get_default e "date" (VStr "").

(** [l < m] on lists of strings: the first differing position decides,
    else the shorter list is smaller. *)
Fixpoint list_ltb (l m : list string) : bool :=
  match l, m with
  | [], [] => false
  | [], _ :: _ => true
  | _ :: _, [] => false
  | x :: l', y :: m' => if String.eqb x y then list_ltb l' m' else String.ltb x y
  end.

(** [a < b] on sort keys: strings compare with strings and lists with
    lists; every other pairing raises [TypeError]. *)
Definition py_lt (a b : value) : outcome bool :=
  match a, b with
  | VStr s, VStr t => Done (String.ltb s t)
  | VList l, VList m => Done (list_ltb l m)
  | _, _ => Raised TypeError
  end.

(** [sorted(events, key=...)] computes the key of every element first and
    then sorts stably, comparing keys with [<] only.  The stable order is
    built by inserting each element in front of the sorted remainder of the
    list, after the elements whose key is strictly smaller. *)
Fixpoint insert_keyed (x : value * dict) (l : list (value * dict))
    : outcome (list (value * dict)) :=
  match l with
  | [] => Done [x]
  | y :: l' =>
      b ← py_lt (fst y) (fst x);
      if b : bool then r ← insert_keyed x l'; Done (y :: r)
      else Done (x :: y :: l')
  end.

Fixpoint sort_keyed (l : list (value * dict)) : outcome (list (value * dict)) :=
  match l with
  | [] => Done []
  | x :: l' => s ← sort_keyed l'; insert_keyed x s
  end.

Definition sorted_events (events : list dict) : outcome (list dict) :=
  r ← sort_keyed (map (fun e => (date_key e, e)) events);
  Done (map snd r).

(** ** Data store *)

(** What opening and parsing a path does, by the state of the file behind
    it: [path.open] raises [FileNotFoundError] when there is no file and
    another [OSError] when the file cannot be opened; [json.load] raises
    [UnicodeDecodeError] on bytes that are not UTF-8 and [JSONDecodeError]
    on text that is not JSON. *)
Inductive source :=
| Absent
| Inaccessible
| Undecodable
| Malformed (cause : string)
| Document (records : list dict).

(** [with path.open("r", encoding="utf-8") as f: return json.load(f)]. *)
Definition read_json (src : source) : outcome (list dict) :=
  match src with
  | Absent => Raised FileNotFoundError
  | Inaccessible => Raised PermissionError
  | Undecodable => Raised UnicodeDecodeError
  | Malformed cause => Raised (JSONDecodeError cause)
  | Document records => Done records
  end.

(** [load_json]: the result, and the messages passed to [st.error]. *)
Definition load_json (fs : string -> source) (path : string)
    : outcome (list dict) * list string :=
  match read_json (fs path) with
  | Raised FileNotFoundError => (Done [], ["File not found: " ++ path])
  | Raised (JSONDecodeError cause) =>
      (Done [], ["Error parsing " ++ path ++ ": " ++ cause])
  | r => (r, [])
  end.

(** ** Sample data *)

Definition ann : dict :=
  {[ "id" := VStr "p1"; "full_name" := VStr "Ann"; "parents" := VList ["p2"] ]}.

Definition bob : dict :=
  {[ "id" := VStr "p2"; "full_name" := VStr "Bob"; "parents" := VList [] ]}.

Definition carl : dict := {[ "id" := VStr "p3" ]}.

(** Ann with her mother listed twice. *)
Definition ann_twice : dict :=
  {[ "id" := VStr "p1"; "full_name" := VStr "Ann";
     "parents" := VList ["p2"; "p2"] ]}.

(** Two records that name each other as parent. *)
Definition eve : dict :=
  {[ "id" := VStr "e"; "full_name" := VStr "Eve"; "parents" := VList ["f"] ]}.

Definition fay : dict :=
  {[ "id" := VStr "f"; "full_name" := VStr "Fay"; "parents" := VList ["e"] ]}.

(** Python's [str] on the values of the samples: a string is its own text
    and [None] prints as its name. *)
Definition str_sample (v : value) : string :=
  match v with
  | VStr s => s
  | _ => "None"
  end.

(** ** Specification predicates *)

(** The record carries the identifier [pid]. *)
Definition has_id (p : dict) (pid : string) : Prop :=
  p !! "id" = Some (VStr pid).

(** No two records of the collection carry the same identifier. *)
Definition unique_ids (people : list dict) : Prop :=
  forall (i j : nat) (p q : dict) (pid : string),
    people !! i = Some p -> people !! j = Some q ->
    has_id p pid -> has_id q pid -> i = j.

(** The body of the loop of [add_node] for the person [pid] expanded at
    [generation]: emit the edge, then recurse into the parent. *)
Definition visit_parent (people : list dict) (max_generations : Z)
    (fuel : nat) (pid : string) (generation : Z)
    : string -> build_state -> outcome build_state :=
  fun parent_id st =>
    add_node people max_generations fuel parent_id (generation + 1)
      (emit (Edge parent_id pid) st).

(** What holds of the shared state between any two steps of the traversal:
    the node statements name exactly the visited identifiers, each once;
    every edge points to a visited identifier; an identifier that resolves
    to no record is labelled by itself. *)
Record graph_inv (people : list dict) (st : build_state) : Prop := GraphInv {
  inv_nodup : NoDup (node_names (body st));
  inv_nodes : forall n, n ∈ node_names (body st) <-> n ∈ visited st;
  inv_heads : forall t h, (t, h) ∈ edges (body st) -> h ∈ visited st;
  inv_labels : forall n lab,
    Node n lab ∈ body st -> get_person_by_id people n = None -> lab = VStr n
}.

(** How a call of [add_node] changes the state: identifiers are only added
    to [visited], statements are only appended, and every new edge points to
    an identifier that was not visited before the call. *)
Definition grows (st st' : build_state) : Prop :=
  visited st ⊆ visited st' /\
  body st `prefix_of` body st' /\
  forall t h, (t, h) ∈ edges (body st') ->
              (t, h) ∈ edges (body st) \/ h ∉ visited st.

(** A record the traversal can expand without raising: it has a
    [full_name], and its [parents], when present, can be iterated. *)
Definition expandable (person : dict) : Prop :=
  is_Some (person !! "full_name") /\ person !! "parents" <> Some VNull.

(** The text an event is dated with, read from the record itself: the
    string held by its [date] field, and the empty string when the record
    has no [date] field. *)
Definition date_text (e : dict) : string :=
  match e !! "date" with
  | Some (VStr s) => s
  | _ => ""
  end.

(** An event of the data model: its [date] field, when present, holds a
    string. *)
Definition text_dated (e : dict) : Prop :=
  e !! "date" = None \/ exists s, e !! "date" = Some (VStr s).

(** Lexicographic order on the [date] fields of two events. *)
Definition date_le (a b : dict) : Prop :=
  String.leb (date_text a) (date_text b) = true.

(** The stable sort of events dated with text, written without the
    possibility of a failing comparison. *)
Fixpoint insert_text (x : dict) (l : list dict) : list dict :=
  match l with
  | [] => [x]
  | y :: l' =>
      if String.ltb (date_text y) (date_text x) then y :: insert_text x l'
      else x :: y :: l'
  end.

Fixpoint sort_text (l : list dict) : list dict :=
  match l with
  | [] => []
  | x :: l' => insert_text x (sort_text l')
  end.

Definition event_a : dict :=
  {[ "date" := VStr "1900-01-01"; "title" := VStr "A" ]}.

Definition event_b : dict :=
  {[ "date" := VStr "1850-05-05"; "title" := VStr "B" ]}.

Definition event_undated : dict := {[ "title" := VStr "C" ]}.

(** A second event on the date of [event_a]. *)
Definition event_a_later : dict :=
  {[ "date" := VStr "1900-01-01"; "title" := VStr "A, later in the input" ]}.

(** [lineage people start g pid]: [pid] is reached from [start] by [g]
    parent hops, each hop going from an identifier to a parent named by the
    record the identifier resolves to. *)
Inductive lineage (people : list dict) (start : string) : Z -> string -> Prop :=
| lineage_start : lineage people start 0 start
| lineage_parent (g : Z) (pid : string) (person : dict) (parent : string) :
    lineage people start g pid ->
    get_person_by_id people pid = Some person ->
    parent ∈ parent_ids person ->
    lineage people start (g + 1) parent.

(** What every statement of the graph under construction comes from: an
    edge from a parent named by the record of its child; a node label from
    the [full_name] of the record of the node; a node from the start or from
    an edge emitted before it, within the generation bound. *)
Record trace_inv (people : list dict) (start : string) (max_generations : Z)
    (st : build_state) : Prop := TraceInv {
  tr_edges : forall t h, Edge t h ∈ body st ->
    exists person, get_person_by_id people h = Some person /\
                   t ∈ parent_ids person;
  tr_labels : forall n lab person, Node n lab ∈ body st ->
    get_person_by_id people n = Some person ->
    person !! "full_name" = Some lab;
  tr_linked : forall n, n ∈ node_names (body st) ->
    n = start \/ exists h, Edge n h ∈ body st;
  tr_lineage : forall n, n ∈ node_names (body st) ->
    exists k, 0 <= k <= max_generations /\ lineage people start k n
}.

(** The situation in which [add_node] is called on [pid] at generation [g]:
    on the start, or right after the edge out of [pid] was emitted. *)
Definition called (people : list dict) (start : string) (pid : string)
    (g : Z) (st : build_state) : Prop :=
  (pid = start \/ exists h, Edge pid h ∈ body st) /\
  lineage people start g pid.

(** The parents the traversal loops over when it expands [pid]: those named
    by the record [pid] resolves to, none when it resolves to no record. *)
Definition parents_of (people : list dict) (pid : string) : list string :=
  match get_person_by_id people pid with
  | Some person => parent_ids person
  | None => []
  end.

(** The edges of a graph that point to [n], in the order of the graph. *)
Definition edges_into (n : string) (g : list stmt) : list (string * string) :=
  filter (fun e => e.2 = n) (edges g).

(** A call appends statements, and each appended edge points to an
    identifier not visited before the call. *)
Definition appends (st st' : build_state) : Prop :=
  exists added,
    body st' = (body st ++ added)%list /\
    Forall (fun e => e.2 ∉ visited st) (edges added).

(** The label a statement of the graph carries, checked against the
    collection. *)
Definition label_ok (people : list dict) (s : stmt) : Prop :=
  match s with
  | Node n lab =>
      match get_person_by_id people n with
      | Some person => person !! "full_name" = Some lab
      | None => lab = VStr n
      end
  | _ => True
  end.

(** ** Data loading and page set-up *)

(** [load_data]: [load_json] on [people.json] and then on [events.json],
    both under the [data] directory, whose string form is [data_dir] (the
    directory named [data] next to the program, so not a root directory:
    joining a file name puts one [/] in between).  The result is the pair
    of the two lists, and the messages passed to [st.error] are those of
    the first call followed by those of the second; an exception in the
    first call leaves the second file unread. *)
Definition load_data (fs : string -> source) (data_dir : string)
    : outcome (list dict * list dict) * list string :=
  let '(people, notes1) := load_json fs (data_dir ++ "/people.json") in
  match people with
  | Done people =>
      let '(events, notes2) := load_json fs (data_dir ++ "/events.json") in
      (events ← events; Done (people, events), (notes1 ++ notes2)%list)
  | Raised e => (Raised e, notes1)
  | OutOfFuel => (OutOfFuel, notes1)
  end.

(** What [load_json] returns for a source it does not raise on. *)
Definition fallback (src : source) : option (list dict) :=
  match src with
  | Absent | Malformed _ => Some []
  | Document records => Some records
  | Inaccessible | Undecodable => None
  end.

(** [[p["id"] for p in people]], the options of the select boxes of
    [main]. *)
Fixpoint ids_of (people : list dict) : outcome (list value) :=
  match people with
  | [] => Done []
  | p :: rest => i ← index p "id"; r ← ids_of rest; Done (i :: r)
  end.

(** [x in ids] and [ids.index(x)]: the first position holding a value equal
    to [x]. *)
Fixpoint py_index (x : value) (ids : list value) : option nat :=
  match ids with
  | [] => None
  | y :: rest => if decide (y = x) then Some O else S <$> py_index x rest
  end.

(** The query parameter [profile] as a value: [None] when absent. *)
Definition param_value (param : option string) : value :=
  match param with
  | Some s => VStr s
  | None => VNull
  end.

(** Truth value of the query parameter: [None] and the empty string are
    false. *)
Definition param_truthy (param : option string) : bool :=
  match param with
  | Some s => negb (String.eqb s "")
  | None => false
  end.

(** The [index] argument of the select box of the Family Tree page, for a
    non-empty [ids]:
    [default_id = profile_param if profile_param else (ids[0] if ids else None)]
    and [ids.index(default_id) if default_id in ids else 0]. *)
Definition tree_index (ids : list value) (param : option string) : nat :=
  let default_id :=
    if param_truthy param then param_value param
    else match ids with i :: _ => i | [] => VNull end in
  match py_index default_id ids with
  | Some i => i
  | None => O
  end.

(** The [index] argument of the select box of the Profiles page:
    [selected_id = profile_param if profile_param in ids else None] and
    [ids.index(selected_id) if selected_id else 0]. *)
Definition profile_index (ids : list value) (param : option string) : nat :=
  let selected : option string :=
    match py_index (param_value param) ids with
    | Some _ => param
    | None => None
    end in
  if param_truthy selected then
    match py_index (param_value selected) ids with
    | Some i => i
    | None => O
    end
  else O.

(** ** Timeline rendering *)

(** The calls [render_timeline] makes on Streamlit: [st.subheader],
    [st.markdown] and [st.write], each with its argument as passed. *)
Inductive ui :=
| Subheader (body : value)
| Markdown (body : string)
| Write (body : value).

(** A rendering: the calls made so far, and how the rendering ended.  An
    exception leaves the calls made before it in place. *)
Definition rendering : Type := list ui * outcome unit.

Definition say (u : ui) : rendering := ([u], Done ()).

Definition silent : rendering := ([], Done ()).

(** [a] then [b]: [b] runs only if [a] ended normally. *)
Definition and_then (a b : rendering) : rendering :=
  match a.2 with
  | Done _ => (a.1 ++ b.1, b.2)%list
  | _ => a
  end.

(** A computation that makes no call, followed by a rendering of its
    result. *)
Definition after {A : Type} (o : outcome A) (k : A -> rendering) : rendering :=
  match o with
  | Done a => k a
  | Raised e => ([], Raised e)
  | OutOfFuel => ([], OutOfFuel)
  end.

(** Truth value of [d.get(key)]: [None], the empty string and the empty
    list are false. *)
Definition truthy_value (v : option value) : bool :=
  match v with
  | Some (VStr s) => negb (String.eqb s "")
  | Some (VList l) => negb (bool_decide (l = []))
  | _ => false
  end.

(** The loop of [render_timeline] over [event["people_involved"]]: a link
    for every identifier that resolves, nothing for the others. *)
Fixpoint involved_links (py_str : value -> string) (people : list dict)
    (pids : list string) : outcome (list string) :=
  match pids with
  | [] => Done []
  | pid :: rest =>
      match get_person_by_id people pid with
      | Some person =>
          if bool_decide (person = ∅) then involved_links py_str people rest
          else
            i ← index person "id";
            profile_query ← concat_str "?profile=" i;
            name ← index person "full_name";
            links ← involved_links py_str people rest;
            Done (("[" ++ py_str name ++ "](" ++ profile_query ++ ")") :: links)
      | None => involved_links py_str people rest
      end
  end.

Definition render_involved (py_str : value -> string) (people : list dict)
    (event : dict) : rendering :=
  if truthy_value (event !! "people_involved") then
    after (v ← index event "people_involved";
           pids ← iterate v;
           involved_links py_str people pids)
      (fun links =>
         if bool_decide (links = []) then silent
         else say (Markdown ("Involved: " ++ String.concat ", " links)))
  else silent.

Definition render_sources (event : dict) : rendering :=
  if truthy_value (event !! "sources") then
    and_then (say (Markdown "Sources:"))
      (after (v ← index event "sources"; iterate v)
         (fun sources =>
            foldr (fun src r => and_then (say (Write (VStr ("- " ++ src)))) r)
              silent sources))
  else silent.

(** The body of the loop of [render_timeline] for one event. *)
Definition render_event (py_str : value -> string) (people : list dict)
    (event : dict) : rendering :=
  and_then (say (Subheader (get_default event "date" (VStr "Unknown date"))))
  (and_then
     (say (Markdown
             ("**" ++ py_str (get_default event "title" (VStr "Untitled event"))
              ++ "**")))
  (and_then (say (Write (get_default event "description" (VStr ""))))
  (and_then (render_involved py_str people event)
            (render_sources event)))).

(** [render_timeline]: sort, then render the events in sorted order. *)
Definition render_timeline (py_str : value -> string) (people : list dict)
    (events : list dict) : rendering :=
  after (sorted_events events)
    (fun sorted =>
       foldr (fun event r => and_then (render_event py_str people event) r)
         silent sorted).

(** The arguments of the [st.subheader] calls of a rendering, in order. *)
Definition subheaders (calls : list ui) : list value :=
  omap (fun u => match u with Subheader b => Some b | _ => None end) calls.

Definition event_with_carl : dict :=
  {[ "date" := VStr "1900-01-01"; "people_involved" := VList ["p3"] ]}.

(** * Theorems *)

Example get_person_by_id_sample :
  get_person_by_id [ann; bob] "p2" = Some bob /\
  get_person_by_id [ann; bob] "missing" = None.
Proof. split; vm_compute; reflexivity. Qed.

Example build_graph_sample :
  build_graph [ann; bob] "p1" 5 =
  Done [Attr "rankdir" "TB"; Node "p1" (VStr "Ann"); Edge "p2" "p1";
        Node "p2" (VStr "Bob")].
Proof. vm_compute. reflexivity. Qed.

(** ** Lookup service *)

Lemma get_equals_has_id (p : dict) (pid : string) :
  get_equals p "id" pid = true <-> has_id p pid.
Proof.
  unfold get_equals, has_id.
  destruct (p !! "id") as [[|t|l]|]; try (split; intros; congruence).
  rewrite String.eqb_eq. split; intros; congruence.
Qed.

Lemma get_person_by_id_first (people : list dict) (pid : string) (p : dict) :
  get_person_by_id people pid = Some p <->
  exists before after,
    people = (before ++ p :: after)%list /\ has_id p pid /\
    Forall (fun q => ~ has_id q pid) before.
Proof.
  induction people as [|q people IH]; simpl.
  - split; [discriminate|]. intros (b & a & E & _). by destruct b.
  - destruct (get_equals q "id" pid) eqn:Hq.
    + apply get_equals_has_id in Hq. split.
      * intros [= <-]. exists [], people. auto.
      * intros (b & a & E & Hp & Hb). destruct b as [|q' b]; simpl in E.
        -- congruence.
        -- injection E as <- _. by apply Forall_cons in Hb as [? _].
    + assert (~ has_id q pid) as Hn.
      { rewrite <- get_equals_has_id. congruence. }
      rewrite IH. split.
      * intros (b & a & -> & Hp & Hb). exists (q :: b), a. auto.
      * intros (b & a & E & Hp & Hb). destruct b as [|q' b]; simpl in E.
        -- injection E as -> _. contradiction.
        -- injection E as <- ->. apply Forall_cons in Hb as [_ Hb]. eauto.
Qed.

Lemma get_person_by_id_none (people : list dict) (pid : string) :
  get_person_by_id people pid = None <->
  Forall (fun q => ~ has_id q pid) people.
Proof.
  induction people as [|q people IH]; simpl.
  - split; auto.
  - destruct (get_equals q "id" pid) eqn:Hq.
    + apply get_equals_has_id in Hq. split; [discriminate|].
      intros [Hn _]%Forall_cons. contradiction.
    + rewrite IH, Forall_cons. split; [|tauto].
      intros H. split; [|done]. rewrite <- get_equals_has_id. congruence.
Qed.

Lemma get_person_by_id_elem (people : list dict) (pid : string) (p : dict) :
  get_person_by_id people pid = Some p -> p ∈ people /\ has_id p pid.
Proof.
  intros (b & a & -> & Hp & _)%get_person_by_id_first. split; [|done].
  apply elem_of_app. right. left.
Qed.

Lemma found_nonempty (people : list dict) (pid : string) (p : dict) :
  get_person_by_id people pid = Some p -> p <> ∅.
Proof.
  intros [_ Hp]%get_person_by_id_elem ->. unfold has_id in Hp.
  by rewrite lookup_empty in Hp.
Qed.

(** C4: on a collection with unique identifiers, [get_person_by_id] returns
    the record carrying the queried identifier whenever one is present (it
    is the first match of the scan), and [None] for every identifier that no
    record carries; it is a total function and raises nothing. *)
Theorem get_person_by_id_total (people : list dict) (pid : string) :
  unique_ids people ->
  (forall p, p ∈ people -> has_id p pid ->
     get_person_by_id people pid = Some p /\
     exists before after,
       people = (before ++ p :: after)%list /\
       Forall (fun q => ~ has_id q pid) before) /\
  ((forall p, p ∈ people -> ~ has_id p pid) ->
     get_person_by_id people pid = None).
Proof.
  intros Huniq. split.
  - intros p Hin Hp.
    destruct (get_person_by_id people pid) as [q|] eqn:Hget.
    + pose proof Hget as (b & a & E & Hq & Hb)%get_person_by_id_first.
      apply list_elem_of_lookup in Hin as [j Hj].
      assert (people !! length b = Some q) as Hi.
      { rewrite E. by rewrite list_lookup_middle. }
      assert (length b = j) as <- by eauto using Huniq.
      assert (q = p) as -> by congruence.
      split; eauto.
    + apply get_person_by_id_none in Hget.
      rewrite Forall_forall in Hget. by destruct (Hget p Hin).
  - intros Hnone. apply get_person_by_id_none, Forall_forall. auto.
Qed.

Lemma unique_ids_sample : unique_ids [ann; bob].
Proof.
  intros i j p q pid Hi Hj Hp Hq.
  destruct i as [|[|i]], j as [|[|j]]; simpl in *; try done;
    simplify_eq; unfold has_id in *; vm_compute in Hp, Hq; congruence.
Qed.

Lemma get_person_by_id_total_witness :
  (forall p, p ∈ [ann; bob] -> has_id p "p2" ->
     get_person_by_id [ann; bob] "p2" = Some p /\
     exists before after,
       [ann; bob] = (before ++ p :: after)%list /\
       Forall (fun q => ~ has_id q "p2") before) /\
  ((forall p, p ∈ [ann; bob] -> ~ has_id p "p2") ->
     get_person_by_id [ann; bob] "p2" = None).
Proof. exact (get_person_by_id_total [ann; bob] "p2" unique_ids_sample). Defined.

Lemma index_some (d : dict) (key : string) (v : value) :
  d !! key = Some v -> index d key = Done v.
Proof. unfold index. by intros ->. Qed.

Lemma index_none (d : dict) (key : string) :
  d !! key = None -> index d key = Raised (KeyError key).
Proof. unfold index. by intros ->. Qed.

Lemma link_person_found (py_str : value -> string) (people : list dict)
    (pid : string) (p : dict) :
  get_person_by_id people pid = Some p ->
  link_person py_str people pid =
  name ← index p "full_name";
  Done ("[" ++ py_str name ++ "](?profile=" ++ pid ++ ")").
Proof.
  intros Hget. unfold link_person. rewrite Hget.
  rewrite bool_decide_eq_false_2 by eauto using found_nonempty.
  apply get_person_by_id_elem in Hget as [_ Hid].
  rewrite (index_some _ _ _ Hid). reflexivity.
Qed.

(** C3 (amended): when the record that the identifier resolves to carries a
    [full_name], [link_person] returns the markdown link made of the full
    name and the profile query; when the identifier resolves to no record it
    returns the raw identifier.  No exception is raised in either case. *)
Theorem link_person_never_fails (py_str : value -> string)
    (people : list dict) (pid : string) :
  (forall p, get_person_by_id people pid = Some p ->
             is_Some (p !! "full_name")) ->
  match get_person_by_id people pid with
  | Some p =>
      exists name, p !! "full_name" = Some name /\
        link_person py_str people pid =
        Done ("[" ++ py_str name ++ "](?profile=" ++ pid ++ ")")
  | None => link_person py_str people pid = Done pid
  end.
Proof.
  intros Hname.
  destruct (get_person_by_id people pid) as [p|] eqn:Hget.
  - destruct (Hname p eq_refl) as [name Hn]. exists name. split; [done|].
    rewrite (link_person_found _ _ _ _ Hget). unfold index. by rewrite Hn.
  - unfold link_person. by rewrite Hget.
Qed.

Lemma bob_has_full_name (p : dict) :
  get_person_by_id [ann; bob] "p2" = Some p -> is_Some (p !! "full_name").
Proof.
  destruct get_person_by_id_sample as [-> _]. intros [= <-].
  exists (VStr "Bob"). vm_compute. reflexivity.
Qed.

Lemma link_person_never_fails_witness :
  match get_person_by_id [ann; bob] "p2" with
  | Some p =>
      exists name, p !! "full_name" = Some name /\
        link_person str_sample [ann; bob] "p2" =
        Done ("[" ++ str_sample name ++ "](?profile=" ++ "p2" ++ ")")
  | None => link_person str_sample [ann; bob] "p2" = Done "p2"
  end.
Proof.
  exact (link_person_never_fails str_sample [ann; bob] "p2" bob_has_full_name).
Defined.

(** C3, as stated, fails: a record that has the identifier and no
    [full_name] makes [link_person] raise [KeyError]. *)
Lemma link_person_raises_without_full_name :
  link_person str_sample [carl] "p3" = Raised (KeyError "full_name").
Proof. vm_compute. reflexivity. Qed.

(** A record missing from the collection degrades to the raw identifier. *)
Lemma link_person_unresolved (py_str : value -> string) (people : list dict)
    (pid : string) :
  Forall (fun q => ~ has_id q pid) people ->
  link_person py_str people pid = Done pid.
Proof.
  intros H%get_person_by_id_none. unfold link_person. by rewrite H.
Qed.

(** ** Data store *)

(** C8 (amended): [load_json] returns the empty list with a "File not
    found" notice when the file is missing, and the empty list with an
    "Error parsing" notice naming the path and the cause when the text is
    not JSON; a well-formed file is returned without notice.  A file that
    cannot be opened for another reason, or whose bytes are not UTF-8, makes
    it raise. *)
Theorem load_json_cases (fs : string -> source) (path : string) :
  match fs path with
  | Absent => load_json fs path = (Done [], ["File not found: " ++ path])
  | Malformed cause =>
      load_json fs path = (Done [], ["Error parsing " ++ path ++ ": " ++ cause])
  | Document records => load_json fs path = (Done records, [])
  | Inaccessible => load_json fs path = (Raised PermissionError, [])
  | Undecodable => load_json fs path = (Raised UnicodeDecodeError, [])
  end.
Proof.
  unfold load_json. destruct (fs path); reflexivity.
Qed.

(** C8, as stated, fails: a file that is present and is not UTF-8 text makes
    [load_json] raise instead of returning an empty collection. *)
Lemma load_json_raises_on_undecodable :
  load_json (fun _ => Undecodable) "data/people.json" =
  (Raised UnicodeDecodeError, []).
Proof. reflexivity. Qed.

(** [load_json] returns a list exactly when the file can be opened and
    decoded, or is missing, or is not JSON. *)
Lemma load_json_returns_iff (fs : string -> source) (path : string) :
  (exists records, fst (load_json fs path) = Done records) <->
  fs path <> Inaccessible /\ fs path <> Undecodable.
Proof.
  unfold load_json. destruct (fs path); simpl; split;
    try (intros [r Hr]; discriminate); try (intros [? ?]; congruence);
    intros; (split; [discriminate|discriminate]) || eauto.
Qed.

(** ** Tree builder *)

Lemma iterate_parent_ids (person : dict) :
  person !! "parents" <> Some VNull ->
  iterate (get_default person "parents" (VList [])) = Done (parent_ids person).
Proof.
  unfold parent_ids, get_default.
  destruct (person !! "parents") as [[|s|l]|]; simpl; congruence.
Qed.

Lemma iterate_null (person : dict) :
  person !! "parents" = Some VNull ->
  iterate (get_default person "parents" (VList [])) = Raised TypeError.
Proof. unfold get_default. by intros ->. Qed.

Lemma for_each_ind {S : Type} (f : string -> S -> outcome S)
    (P : list string -> S -> Prop) (items : list string) (st st' : S) :
  P [] st ->
  (forall done x rest s1 s2,
     items = (done ++ x :: rest)%list -> P done s1 -> f x s1 = Done s2 ->
     P (done ++ [x])%list s2) ->
  for_each f items st = Done st' -> P items st'.
Proof.
  revert P st. induction items as [|x items IH]; intros P st H0 Hstep Hrun.
  - simpl in Hrun. by injection Hrun as <-.
  - simpl in Hrun. destruct (f x st) as [s1| |] eqn:Hx; try discriminate.
    simpl in Hrun.
    apply (IH (fun done s => P (x :: done) s) s1); [| |done].
    + apply (Hstep [] x items st s1); auto.
    + intros done y rest s2 s3 -> Hp Hy.
      apply (Hstep (x :: done) y rest s2 s3); auto.
Qed.

Lemma for_each_preserves {S : Type} (f : string -> S -> outcome S)
    (P : S -> Prop) (items : list string) (st st' : S) :
  P st ->
  (forall x s1 s2, x ∈ items -> P s1 -> f x s1 = Done s2 -> P s2) ->
  for_each f items st = Done st' -> P st'.
Proof.
  intros H0 Hstep. apply (for_each_ind f (fun _ => P)); [done|].
  intros done x rest s1 s2 -> Hp Hx. apply (Hstep x s1 s2); [|done..].
  apply elem_of_app. right. left.
Qed.

Lemma node_names_snoc_node (g : list stmt) (n : string) (lab : value) :
  node_names (g ++ [Node n lab]) = (node_names g ++ [n])%list.
Proof. unfold node_names. by rewrite omap_app. Qed.

Lemma node_names_snoc_edge (g : list stmt) (t h : string) :
  node_names (g ++ [Edge t h]) = node_names g.
Proof. unfold node_names. rewrite omap_app. simpl. by rewrite app_nil_r. Qed.

Lemma edges_snoc_node (g : list stmt) (n : string) (lab : value) :
  edges (g ++ [Node n lab]) = edges g.
Proof. unfold edges. rewrite omap_app. simpl. by rewrite app_nil_r. Qed.

Lemma edges_snoc_edge (g : list stmt) (t h : string) :
  edges (g ++ [Edge t h]) = (edges g ++ [(t, h)])%list.
Proof. unfold edges. by rewrite omap_app. Qed.



Lemma grows_refl (st : build_state) : grows st st.
Proof. unfold grows. auto. Qed.

Lemma grows_trans (a b c : build_state) : grows a b -> grows b c -> grows a c.
Proof.
  intros (Hv1 & Hp1 & He1) (Hv2 & Hp2 & He2). split; [set_solver|].
  split; [by etrans|]. intros t h Hin.
  destruct (He2 t h Hin) as [Hb|Hb]; [auto|]. right. set_solver.
Qed.

Lemma grows_node (st : build_state) (pid : string) (lab : value) :
  grows st (emit (Node pid lab) (mark pid st)).
Proof.
  split; [simpl; set_solver|]. split; [by apply prefix_app_r|].
  intros t h. simpl. rewrite edges_snoc_node. auto.
Qed.

Lemma grows_edge (st s : build_state) (t pid : string) :
  pid ∉ visited st -> grows st s -> grows st (emit (Edge t pid) s).
Proof.
  intros Hpid (Hv & Hp & He). split; [done|]. split; [by apply prefix_app_r|].
  intros t' h. simpl. rewrite edges_snoc_edge, elem_of_app, list_elem_of_singleton.
  intros [Hin|[= -> ->]]; auto.
Qed.

Lemma inv_initial (people : list dict) : graph_inv people initial_state.
Proof.
  split; simpl.
  - constructor.
  - intros n. split; [by intros ?%elem_of_nil|set_solver].
  - by intros t h ?%elem_of_nil.
  - intros n lab Hin%list_elem_of_singleton. discriminate.
Qed.

Lemma inv_node (people : list dict) (st : build_state) (pid : string)
    (lab : value) :
  graph_inv people st -> pid ∉ visited st ->
  (get_person_by_id people pid = None -> lab = VStr pid) ->
  graph_inv people (emit (Node pid lab) (mark pid st)).
Proof.
  intros [Hnd Hn Hh Hl] Hpid Hlab. split; simpl.
  - rewrite node_names_snoc_node. apply NoDup_app. split; [done|].
    split; [|apply NoDup_singleton].
    intros x Hx%Hn ->%list_elem_of_singleton. done.
  - intros n. rewrite node_names_snoc_node, elem_of_app, Hn,
      list_elem_of_singleton, elem_of_union, elem_of_singleton. tauto.
  - intros t h. rewrite edges_snoc_node, elem_of_union. eauto.
  - intros n l. rewrite elem_of_app, list_elem_of_singleton.
    intros [Hin|[= -> ->]]; eauto.
Qed.

Lemma inv_edge (people : list dict) (st : build_state) (t h : string) :
  graph_inv people st -> h ∈ visited st ->
  graph_inv people (emit (Edge t h) st).
Proof.
  intros [Hnd Hn Hh Hl] Hv. split; simpl.
  - by rewrite node_names_snoc_edge.
  - intros n. by rewrite node_names_snoc_edge.
  - intros t' h'. rewrite edges_snoc_edge, elem_of_app, list_elem_of_singleton.
    intros [Hin|[= -> ->]]; eauto.
  - intros n l. rewrite elem_of_app, list_elem_of_singleton.
    intros [Hin|[=]]; eauto.
Qed.

Lemma visit_parent_eq (people : list dict) (max_generations : Z)
    (fuel : nat) (pid : string) (g : Z) (x : string) (st : build_state) :
  visit_parent people max_generations fuel pid g x st =
  add_node people max_generations fuel x (g + 1) (emit (Edge x pid) st).
Proof. reflexivity. Qed.

Section traversal.

Variable people : list dict.
Variable max_generations : Z.

Lemma add_node_cases (fuel : nat) (pid : string) (g : Z)
    (st st' : build_state) :
  add_node people max_generations (S fuel) pid g st = Done st' ->
  (st' = st /\ (pid ∈ visited st \/ max_generations < g)) \/
  ((pid ∉ visited st) /\ g <= max_generations /\
   ((get_person_by_id people pid = None /\
     st' = emit (Node pid (VStr pid)) (mark pid st)) \/
    (exists person label,
       get_person_by_id people pid = Some person /\
       person !! "full_name" = Some label /\
       person !! "parents" <> Some VNull /\
       for_each (visit_parent people max_generations fuel pid g)
         (parent_ids person) (emit (Node pid label) (mark pid st)) = Done st'))).
Proof.
  simpl. destruct (bool_decide (pid ∈ visited st)) eqn:Hv; simpl.
  { intros [= <-]. left. apply bool_decide_eq_true in Hv. auto. }
  apply bool_decide_eq_false in Hv.
  destruct (g >? max_generations) eqn:Hg.
  { intros [= <-]. left. split; [done|]. right. lia. }
  intros H. right. split; [done|]. split; [lia|].
  destruct (get_person_by_id people pid) as [person|] eqn:Hget.
  - rewrite bool_decide_eq_false_2 in H by eauto using found_nonempty.
    right. exists person.
    destruct (person !! "full_name") as [label|] eqn:Hn.
    + rewrite (index_some _ _ _ Hn) in H. simpl in H.
      exists label. split; [done|]. split; [done|].
      destruct (decide (person !! "parents" = Some VNull)) as [Hp|Hp].
      * rewrite (iterate_null _ Hp) in H. discriminate.
      * split; [done|]. by rewrite (iterate_parent_ids _ Hp) in H.
    + rewrite (index_none _ _ Hn) in H. discriminate.
  - left. split; [done|]. by injection H.
Qed.

Lemma add_node_S (fuel : nat) (pid : string) (g : Z) (st : build_state) :
  add_node people max_generations (S fuel) pid g st =
  if bool_decide (pid ∈ visited st) || (g >? max_generations) then Done st
  else
    match get_person_by_id people pid with
    | Some person =>
        label ← index person "full_name";
        parents ← iterate (get_default person "parents" (VList []));
        for_each (visit_parent people max_generations fuel pid g) parents
          (emit (Node pid label) (mark pid st))
    | None => Done (emit (Node pid (VStr pid)) (mark pid st))
    end.
Proof.
  simpl. destruct (bool_decide (pid ∈ visited st) || (g >? max_generations));
    [done|].
  destruct (get_person_by_id people pid) as [person|] eqn:Hget; [|done].
  by rewrite bool_decide_eq_false_2 by eauto using found_nonempty.
Qed.

Lemma add_node_grows (fuel : nat) :
  forall pid g st st',
    add_node people max_generations fuel pid g st = Done st' -> grows st st'.
Proof.
  induction fuel as [|fuel IH]; intros pid g st st' H; [discriminate|].
  apply add_node_cases in H
    as [[-> _]|(Hv & Hg & [[Hget ->]|(person & label & _ & _ & _ & Hloop)])].
  - apply grows_refl.
  - apply grows_node.
  - revert Hloop. apply for_each_preserves; [apply grows_node|].
    intros x s1 s2 _ Hs1 Hx. unfold visit_parent in Hx.
    eapply grows_trans; [by apply grows_edge|by eapply IH].
Qed.

Lemma add_node_inv (fuel : nat) :
  forall pid g st st',
    add_node people max_generations fuel pid g st = Done st' ->
    graph_inv people st -> graph_inv people st'.
Proof.
  induction fuel as [|fuel IH]; intros pid g st st' H Hinv; [discriminate|].
  apply add_node_cases in H
    as [[-> _]|(Hv & Hg & [[Hget ->]|(person & label & Hget & _ & _ & Hloop)])].
  - done.
  - by apply inv_node.
  - cut (graph_inv people st' /\ pid ∈ visited st'); [tauto|].
    revert Hloop.
    apply (for_each_preserves _
             (fun s => graph_inv people s /\ pid ∈ visited s)).
    + split; [apply inv_node; [done..|congruence]|simpl; set_solver].
    + intros x s1 s2 _ [Hs1 Hpid] Hx. unfold visit_parent in Hx. split.
      * eapply IH; [done|]. by apply inv_edge.
      * apply add_node_grows in Hx as [Hsub _]. simpl in Hsub. set_solver.
Qed.

Lemma add_node_visits (fuel : nat) (pid : string) (g : Z)
    (st st' : build_state) :
  add_node people max_generations fuel pid g st = Done st' ->
  g <= max_generations -> pid ∈ visited st'.
Proof.
  intros H Hg. pose proof (add_node_grows _ _ _ _ _ H) as [Hsub _].
  destruct fuel as [|fuel]; [discriminate|].
  apply add_node_cases in H
    as [[-> [Hv|Hlt]]|(Hv & _ & [[Hget ->]|(person & label & _ & _ & _ & Hloop)])].
  - done.
  - lia.
  - simpl. set_solver.
  - revert Hloop.
    apply (for_each_preserves _ (fun s => pid ∈ visited s));
      [simpl; set_solver|].
    intros x s1 s2 _ Hs1 Hx. unfold visit_parent in Hx.
    apply add_node_grows in Hx as [Hs _]. simpl in Hs. set_solver.
Qed.

Lemma for_each_fuel_mono {S : Type} (f f' : string -> S -> outcome S)
    (items : list string) :
  (forall x s r, f x s = r -> r <> OutOfFuel -> f' x s = r) ->
  forall st r, for_each f items st = r -> r <> OutOfFuel ->
               for_each f' items st = r.
Proof.
  intros Hf. induction items as [|x items IH]; intros st r Hr Hne; [done|].
  simpl in *. destruct (f x st) as [s1|e|] eqn:Hx; simpl in Hr.
  - rewrite (Hf x st (Done s1)) by done. simpl. by apply IH.
  - rewrite (Hf x st (Raised e)) by done. done.
  - congruence.
Qed.

(** The outcome of [add_node] does not depend on the recursion budget, once
    the budget is enough. *)
Lemma add_node_fuel_mono (fuel : nat) :
  forall fuel' pid g st r,
    add_node people max_generations fuel pid g st = r -> r <> OutOfFuel ->
    (fuel <= fuel')%nat ->
    add_node people max_generations fuel' pid g st = r.
Proof.
  induction fuel as [|fuel IH]; intros fuel' pid g st r Hr Hne Hle.
  { simpl in Hr. congruence. }
  destruct fuel' as [|fuel']; [lia|].
  rewrite add_node_S in *.
  destruct (bool_decide (pid ∈ visited st) || (g >? max_generations)); [done|].
  destruct (get_person_by_id people pid) as [person|]; [|done].
  destruct (index person "full_name") as [label| |]; simpl in *; try done.
  destruct (iterate (get_default person "parents" (VList [])))
    as [parents| |]; simpl in *; try done.
  revert Hr Hne. apply for_each_fuel_mono.
  intros x s r' Hx Hr'. unfold visit_parent in *. apply (IH fuel'); [done..|lia].
Qed.

Lemma parent_ids_known (start_id : string) (p : dict) (x : string) :
  p ∈ people -> x ∈ parent_ids p -> x ∈ known_ids people start_id.
Proof.
  intros Hp Hx. unfold known_ids.
  apply elem_of_union_r, elem_of_list_to_set, list_elem_of_In, in_concat.
  exists (parent_ids p). split.
  - apply in_map, list_elem_of_In, Hp.
  - by apply list_elem_of_In.
Qed.

(** The visited set bounds the depth of the recursion: a call on a known
    identifier never needs more calls in depth than there are known
    identifiers not yet visited, whatever the generation bound and whether
    or not the parent relation has cycles. *)
Lemma add_node_enough_fuel (start_id : string) (fuel : nat) :
  forall pid g st,
    pid ∈ known_ids people start_id ->
    (size (known_ids people start_id ∖ visited st) < fuel)%nat ->
    add_node people max_generations fuel pid g st <> OutOfFuel.
Proof.
  set (U := known_ids people start_id).
  induction fuel as [|fuel IH]; intros pid g st Hpid Hsize; [lia|].
  rewrite add_node_S.
  destruct (bool_decide (pid ∈ visited st)) eqn:Hv; [done|].
  apply bool_decide_eq_false in Hv. simpl.
  destruct (g >? max_generations); [done|].
  destruct (get_person_by_id people pid) as [person|] eqn:Hget; [|done].
  apply get_person_by_id_elem in Hget as [Hin _].
  destruct (person !! "full_name") as [label|] eqn:Hn;
    [rewrite (index_some _ _ _ Hn)|by rewrite (index_none _ _ Hn)].
  simpl.
  destruct (decide (person !! "parents" = Some VNull)) as [Hp|Hp].
  { by rewrite (iterate_null _ Hp). }
  rewrite (iterate_parent_ids _ Hp). simpl.
  assert (size (U ∖ ({[pid]} ∪ visited st)) < size (U ∖ visited st))%nat
    as Hless.
  { apply subset_size. split; [set_solver|].
    intros Hsub. specialize (Hsub pid). set_solver. }
  assert (forall x, x ∈ parent_ids person -> x ∈ U) as Hknown.
  { intros x Hx. by apply (parent_ids_known start_id person). }
  assert (forall s, {[pid]} ∪ visited st ⊆ visited s ->
          (size (U ∖ visited s) < fuel)%nat) as Hfuel.
  { intros s Hs.
    assert (size (U ∖ visited s) <= size (U ∖ ({[pid]} ∪ visited st)))%nat
      by (apply subseteq_size; set_solver).
    lia. }
  assert (forall ps s,
            (forall x, x ∈ ps -> x ∈ U) ->
            {[pid]} ∪ visited st ⊆ visited s ->
            for_each (visit_parent people max_generations fuel pid g) ps s
            <> OutOfFuel) as Hloop.
  { induction ps as [|x ps IHps]; intros s Hps Hs; [done|].
    simpl. destruct (visit_parent people max_generations fuel pid g x s)
      as [s1| |] eqn:Hx; simpl; [|done|].
    - apply IHps.
      + intros y Hy. apply Hps. by right.
      + unfold visit_parent in Hx. apply add_node_grows in Hx as [Hsub _].
        simpl in Hsub. set_solver.
    - exfalso. unfold visit_parent in Hx. revert Hx. apply IH.
      + apply Hps. left.
      + simpl. by apply Hfuel. }
  apply Hloop; [done|]. simpl. set_solver.
Qed.



(** After the loop over the parents of [pid], every parent has its edge to
    [pid]; below the generation bound every parent is visited as well. *)
Lemma for_each_parents_done (fuel : nat) (pid : string) (g : Z)
    (ps : list string) (st st' : build_state) :
  for_each (visit_parent people max_generations fuel pid g) ps st = Done st' ->
  forall x, x ∈ ps ->
    Edge x pid ∈ body st' /\ (g < max_generations -> x ∈ visited st').
Proof.
  apply (for_each_ind _
    (fun done s => forall x, x ∈ done ->
       Edge x pid ∈ body s /\ (g < max_generations -> x ∈ visited s))).
  - by intros x ?%elem_of_nil.
  - intros done x rest s1 s2 _ Hdone Hx y Hy. unfold visit_parent in Hx.
    pose proof (add_node_grows _ _ _ _ _ Hx) as (Hsub & Hpre & _).
    simpl in Hsub, Hpre.
    apply elem_of_app in Hy as [Hy| ->%list_elem_of_singleton].
    + destruct (Hdone y Hy) as [He Hv]. split.
      * eapply elem_of_prefix; [|done]. apply elem_of_app. by left.
      * intros Hg. set_solver.
    + split.
      * eapply elem_of_prefix; [|done]. apply elem_of_app. right. left.
      * intros Hg. eapply add_node_visits; [done|lia].
Qed.

(** A call on a person whose parent lists repeat no identifier adds no edge
    twice. *)
Lemma add_node_edges_nodup (fuel : nat) :
  (forall p, p ∈ people -> NoDup (parent_ids p)) ->
  forall pid g st st',
    add_node people max_generations fuel pid g st = Done st' ->
    graph_inv people st -> NoDup (edges (body st)) ->
    NoDup (edges (body st')).
Proof.
  intros Hnd. induction fuel as [|fuel IH]; intros pid g st st' H Hinv Hed;
    [discriminate|].
  apply add_node_cases in H
    as [[-> _]|(Hv & Hg & [[Hget ->]|(person & label & Hget & _ & _ & Hloop)])].
  - done.
  - simpl. by rewrite edges_snoc_node.
  - assert (NoDup (parent_ids person)) as Hps.
    { apply Hnd. by apply get_person_by_id_elem in Hget as [? _]. }
    cut (graph_inv people st' /\ NoDup (edges (body st')) /\
         pid ∈ visited st' /\
         forall t, (t, pid) ∈ edges (body st') -> t ∈ parent_ids person);
      [tauto|].
    revert Hloop.
    apply (for_each_ind _
      (fun done s => graph_inv people s /\ NoDup (edges (body s)) /\
         pid ∈ visited s /\
         forall t, (t, pid) ∈ edges (body s) -> t ∈ done)).
    + split; [apply inv_node; [done..|congruence]|].
      simpl. rewrite edges_snoc_node. split; [done|]. split; [set_solver|].
      intros t Ht. destruct Hv. by apply (inv_heads _ _ Hinv t).
    + intros done x rest s1 s2 Heq (Hs1 & Hnd1 & Hpid & Hdone) Hx.
      unfold visit_parent in Hx.
      assert (x ∉ done) as Hfresh.
      { rewrite Heq in Hps. apply NoDup_app in Hps as (_ & Hdis & _).
        intros Hin. apply (Hdis x Hin). left. }
      assert (graph_inv people (emit (Edge x pid) s1)) as Hs1'
        by by apply inv_edge.
      assert (NoDup (edges (body (emit (Edge x pid) s1)))) as Hnd1'.
      { simpl. rewrite edges_snoc_edge. apply NoDup_app. split; [done|].
        split; [|apply NoDup_singleton].
        intros th Hin Heq'%list_elem_of_singleton. subst th. auto. }
      pose proof (add_node_grows _ _ _ _ _ Hx) as (Hsub & _ & Hnew).
      split; [by eapply add_node_inv|]. split; [by eapply IH|].
      split; [simpl in Hsub; set_solver|].
      intros t Ht. apply elem_of_app.
      destruct (Hnew t pid Ht) as [Hold|Hnot]; [|by destruct Hnot].
      simpl in Hold. rewrite edges_snoc_edge in Hold.
      apply elem_of_app in Hold as [Hold|Hold]; [left; auto|right].
      apply list_elem_of_singleton in Hold. injection Hold as ->.
      apply list_elem_of_singleton. done.
Qed.

End traversal.

(** The budget of [build_graph] is enough, and a larger one changes
    nothing. *)
Lemma build_graph_fuel_enough (people : list dict) (start_id : string)
    (max_generations : Z) (fuel : nat) :
  (size (known_ids people start_id) < fuel)%nat ->
  build_graph_fuel fuel people start_id max_generations =
  build_graph people start_id max_generations /\
  build_graph people start_id max_generations <> OutOfFuel.
Proof.
  intros Hfuel. unfold build_graph, build_graph_fuel.
  set (n := size (known_ids people start_id)) in *.
  destruct (add_node people max_generations (S n) start_id 0 initial_state)
    as [st| |] eqn:Hrun.
  - rewrite (add_node_fuel_mono _ _ _ _ _ _ _ _ Hrun) by (done || lia). done.
  - rewrite (add_node_fuel_mono _ _ _ _ _ _ _ _ Hrun) by (done || lia). done.
  - exfalso. revert Hrun. apply (add_node_enough_fuel _ _ start_id).
    + unfold known_ids. set_solver.
    + simpl. fold n.
      assert (size (known_ids people start_id ∖ ∅) <= n)%nat
        by (apply subseteq_size; set_solver).
      lia.
Qed.

Lemma build_graph_done (people : list dict) (start_id : string)
    (max_generations : Z) (g : list stmt) :
  build_graph people start_id max_generations = Done g ->
  exists st,
    add_node people max_generations (S (size (known_ids people start_id)))
      start_id 0 initial_state = Done st /\
    g = body st /\ graph_inv people st.
Proof.
  unfold build_graph, build_graph_fuel. intros H.
  destruct (add_node _ _ _ _ _ _) as [st| |] eqn:Hrun; try discriminate.
  exists st. split; [done|]. split; [by injection H|].
  eapply add_node_inv; [done|apply inv_initial].
Qed.

Lemma build_graph_has_fuel (people : list dict) (start_id : string)
    (max_generations : Z) :
  build_graph people start_id max_generations <> OutOfFuel.
Proof.
  apply (build_graph_fuel_enough people start_id max_generations
           (S (size (known_ids people start_id)))). lia.
Qed.

Lemma build_graph_nodes_nodup (people : list dict) (start_id : string)
    (max_generations : Z) (g : list stmt) :
  build_graph people start_id max_generations = Done g -> NoDup (node_names g).
Proof.
  intros (st & _ & -> & Hinv)%build_graph_done. apply (inv_nodup _ _ Hinv).
Qed.

(** C2: [build_graph] terminates for every collection, start identifier and
    generation bound, with or without cycles in the parent relation: the
    recursion budget of one call per known identifier (and one more) is
    never exhausted, a larger budget gives the same outcome, and in the
    graph returned every identifier has at most one node statement, that
    is, it was expanded at most once. *)
Theorem build_graph_terminates (people : list dict) (start_id : string)
    (max_generations : Z) :
  build_graph people start_id max_generations <> OutOfFuel /\
  (forall fuel, (size (known_ids people start_id) < fuel)%nat ->
     build_graph_fuel fuel people start_id max_generations =
     build_graph people start_id max_generations) /\
  (forall g, build_graph people start_id max_generations = Done g ->
     NoDup (node_names g)).
Proof.
  split; [apply build_graph_has_fuel|split].
  - intros fuel Hfuel. by apply build_graph_fuel_enough.
  - apply build_graph_nodes_nodup.
Qed.

Example build_graph_cycle :
  build_graph [eve; fay] "e" 20 =
  Done [Attr "rankdir" "TB"; Node "e" (VStr "Eve"); Edge "f" "e";
        Node "f" (VStr "Fay"); Edge "e" "f"].
Proof. vm_compute. reflexivity. Qed.

(** C9 (amended): the graph returned by [build_graph] has no two node
    statements for one identifier; it has no two statements for one
    (parent, child) edge provided no record lists a parent twice. *)
Theorem build_graph_no_duplicates (people : list dict) (start_id : string)
    (max_generations : Z) (g : list stmt) :
  build_graph people start_id max_generations = Done g ->
  NoDup (node_names g) /\
  ((forall p, p ∈ people -> NoDup (parent_ids p)) -> NoDup (edges g)).
Proof.
  intros Hg. split; [by eapply build_graph_nodes_nodup|].
  intros Hnd. apply build_graph_done in Hg as (st & Hrun & -> & _).
  eapply add_node_edges_nodup; [done..|apply inv_initial|constructor].
Qed.

Lemma build_graph_no_duplicates_witness :
  NoDup (node_names [Attr "rankdir" "TB"; Node "p1" (VStr "Ann");
                     Edge "p2" "p1"; Node "p2" (VStr "Bob")]) /\
  ((forall p, p ∈ [ann; bob] -> NoDup (parent_ids p)) ->
   NoDup (edges [Attr "rankdir" "TB"; Node "p1" (VStr "Ann");
                 Edge "p2" "p1"; Node "p2" (VStr "Bob")])).
Proof.
  exact (build_graph_no_duplicates [ann; bob] "p1" 5 _ build_graph_sample).
Defined.

(** C9, as stated, fails: a parent listed twice gives the same edge
    twice. *)
Lemma build_graph_repeats_edge :
  build_graph [ann_twice] "p1" 5 =
  Done [Attr "rankdir" "TB"; Node "p1" (VStr "Ann"); Edge "p2" "p1";
        Node "p2" (VStr "p2"); Edge "p2" "p1"].
Proof. vm_compute. reflexivity. Qed.

(** C10: a start identifier that no record carries gives, for every
    non-negative generation bound, the graph with the single node of the
    start, labelled by the identifier itself, and no edge. *)
Theorem build_graph_unresolved_start (people : list dict) (start_id : string)
    (max_generations : Z) :
  0 <= max_generations ->
  Forall (fun q => ~ has_id q start_id) people ->
  build_graph people start_id max_generations =
  Done [Attr "rankdir" "TB"; Node start_id (VStr start_id)] /\
  node_names [Attr "rankdir" "TB"; Node start_id (VStr start_id)] = [start_id] /\
  edges [Attr "rankdir" "TB"; Node start_id (VStr start_id)] = [].
Proof.
  intros Hmax Hnone%get_person_by_id_none. split; [|done].
  unfold build_graph, build_graph_fuel. rewrite add_node_S, Hnone.
  rewrite bool_decide_eq_false_2 by set_solver.
  replace (0 >? max_generations) with false by lia. reflexivity.
Qed.

Lemma nobody_is_p9 : Forall (fun q => ~ has_id q "p9") [ann; bob].
Proof. apply get_person_by_id_none. vm_compute. reflexivity. Qed.

Lemma build_graph_unresolved_start_witness :
  build_graph [ann; bob] "p9" 4 =
  Done [Attr "rankdir" "TB"; Node "p9" (VStr "p9")] /\
  node_names [Attr "rankdir" "TB"; Node "p9" (VStr "p9")] = ["p9"] /\
  edges [Attr "rankdir" "TB"; Node "p9" (VStr "p9")] = [].
Proof.
  apply (build_graph_unresolved_start [ann; bob] "p9" 4); [lia|].
  exact nobody_is_p9.
Defined.

(** With a generation bound of 0 the start is the only identifier expanded,
    but the loop over its parents still emits their edges: the bound is
    checked at the head of the recursive call, after [graph.edge]. *)
Lemma build_graph_zero_generations (people : list dict) (start_id : string)
    (person : dict) (label : value) :
  get_person_by_id people start_id = Some person ->
  person !! "full_name" = Some label ->
  person !! "parents" <> Some VNull ->
  build_graph people start_id 0 =
  Done ([Attr "rankdir" "TB"; Node start_id label] ++
        map (fun parent_id => Edge parent_id start_id) (parent_ids person))%list.
Proof.
  intros Hget Hn Hp. unfold build_graph, build_graph_fuel.
  assert (exists n, size (known_ids people start_id) = S n) as [n ->].
  { destruct (size (known_ids people start_id)) as [|n] eqn:Hsize; [|eauto].
    apply size_empty_inv in Hsize. unfold known_ids in Hsize. set_solver. }
  rewrite add_node_S, Hget, (index_some _ _ _ Hn), (iterate_parent_ids _ Hp).
  rewrite bool_decide_eq_false_2 by set_solver. simpl.
  assert (forall ps s,
            for_each (visit_parent people 0 (S n) start_id 0) ps s =
            Done (BuildState (visited s)
                    (body s ++ map (fun x => Edge x start_id) ps))) as Hloop.
  { induction ps as [|x ps IH]; intros s.
    - simpl. rewrite app_nil_r. by destruct s.
    - cbn [for_each]. rewrite visit_parent_eq, add_node_S.
      replace (0 + 1 >? 0) with true by lia. rewrite orb_true_r.
      cbn [mbind outcome_bind]. rewrite IH. simpl. by rewrite <- app_assoc. }
  rewrite Hloop. reflexivity.
Qed.

(** C1, on the code: with [max_generations = 0] and a start person who has
    a parent, the graph has one node and one edge, where the claim says no
    edge. *)
Theorem build_graph_zero_generations_has_edge :
  build_graph [ann; bob] "p1" 0 =
  Done [Attr "rankdir" "TB"; Node "p1" (VStr "Ann"); Edge "p2" "p1"] /\
  edges [Attr "rankdir" "TB"; Node "p1" (VStr "Ann"); Edge "p2" "p1"] =
  [("p2", "p1")].
Proof. split; vm_compute; reflexivity. Qed.



Lemma ann_expandable : Forall expandable [ann].
Proof.
  apply Forall_singleton. split.
  - exists (VStr "Ann"). vm_compute. reflexivity.
  - vm_compute. discriminate.
Qed.






(** ** Timeline formatter *)

Lemma compare_as_OT (a b : string) :
  String.compare a b = String_as_OT.compare a b.
Proof.
  revert b. induction a as [|c a IH]; intros [|d b]; simpl; try done.
Qed.

Lemma ltb_lt (a b : string) : String.ltb a b = true <-> String_as_OT.lt a b.
Proof.
  unfold String.ltb, String_as_OT.lt. rewrite compare_as_OT.
  destruct (String_as_OT.compare a b); split; congruence.
Qed.

Lemma ltb_irrefl (a : string) : String.ltb a a = false.
Proof.
  destruct (String.ltb a a) eqn:H; [|done].
  apply ltb_lt in H. by apply (irreflexivity String_as_OT.lt) in H.
Qed.

Lemma ltb_trans (a b c : string) :
  String.ltb a b = true -> String.ltb b c = true -> String.ltb a c = true.
Proof. rewrite !ltb_lt. apply (transitivity (R:=String_as_OT.lt)). Qed.

Lemma leb_not_ltb (a b : string) :
  String.leb a b = true <-> String.ltb b a = false.
Proof.
  unfold String.leb, String.ltb. rewrite (String.compare_antisym b a).
  destruct (String.compare a b); simpl; split; congruence.
Qed.

Lemma ltb_leb (a b : string) : String.ltb a b = true -> String.leb a b = true.
Proof.
  unfold String.leb, String.ltb. destruct (String.compare a b); congruence.
Qed.

Lemma leb_trans (a b c : string) :
  String.leb a b = true -> String.leb b c = true -> String.leb a c = true.
Proof.
  rewrite !leb_not_ltb. intros Hba Hcb.
  destruct (String.ltb c a) eqn:Hca; [|done].
  destruct (String.compare a b) eqn:Hab.
  - apply String.compare_eq_iff in Hab as ->. congruence.
  - assert (String.ltb a b = true) as Hlt by (unfold String.ltb; by rewrite Hab).
    rewrite (ltb_trans c a b) in Hcb; done.
  - rewrite String.compare_antisym in Hab. unfold String.ltb in Hba.
    destruct (String.compare b a); simpl in Hab; congruence.
Qed.

Lemma leb_empty (a : string) : String.leb "" a = true.
Proof. by destruct a. Qed.

Lemma leb_empty_inv (a : string) : String.leb a "" = true -> a = "".
Proof. by destruct a. Qed.

Lemma date_text_key (e : dict) :
  text_dated e -> date_key e = VStr (date_text e).
Proof.
  unfold date_key, get_default, date_text. by intros [->|[s ->]].
Qed.

Lemma date_text_missing (e : dict) : e !! "date" = None -> date_text e = "".
Proof. unfold date_text. by intros ->. Qed.

Lemma insert_text_perm (x : dict) (l : list dict) :
  Permutation (x :: l) (insert_text x l).
Proof.
  induction l as [|y l IH]; simpl; [done|].
  destruct (String.ltb (date_text y) (date_text x)); [|done].
  rewrite <- IH. apply perm_swap.
Qed.

Lemma sort_text_perm (l : list dict) : Permutation l (sort_text l).
Proof.
  induction l as [|x l IH]; simpl; [done|].
  rewrite <- insert_text_perm. by constructor.
Qed.

Lemma insert_text_sorted (x : dict) (l : list dict) :
  StronglySorted date_le l -> StronglySorted date_le (insert_text x l).
Proof.
  induction 1 as [|y l Hl IH Hy]; simpl.
  - repeat constructor.
  - destruct (String.ltb (date_text y) (date_text x)) eqn:Hlt.
    + constructor; [done|]. rewrite <- insert_text_perm.
      constructor; [|done]. by apply ltb_leb.
    + apply leb_not_ltb in Hlt. constructor; [by constructor|].
      constructor; [done|]. eapply Forall_impl; [done|].
      intros z Hz. unfold date_le in *. by eapply leb_trans.
Qed.

Lemma sort_text_sorted (l : list dict) : StronglySorted date_le (sort_text l).
Proof.
  induction l as [|x l IH]; simpl; [constructor|by apply insert_text_sorted].
Qed.

Lemma insert_text_filter (k : string) (x : dict) (l : list dict) :
  filter (fun e => date_text e = k) (insert_text x l) =
  filter (fun e => date_text e = k) (x :: l).
Proof.
  induction l as [|y l IH]; simpl; [done|].
  destruct (String.ltb (date_text y) (date_text x)) eqn:Hlt; [|done].
  rewrite (filter_cons _ y), IH, !filter_cons.
  destruct (decide (date_text y = k)) as [Hy|Hy];
    destruct (decide (date_text x = k)) as [Hx|Hx]; try done.
  rewrite Hy, Hx, ltb_irrefl in Hlt. discriminate.
Qed.

Lemma sort_text_filter (k : string) (l : list dict) :
  filter (fun e => date_text e = k) (sort_text l) =
  filter (fun e => date_text e = k) l.
Proof.
  induction l as [|x l IH]; simpl; [done|].
  by rewrite insert_text_filter, !filter_cons, IH.
Qed.

Lemma sort_text_fixed (l : list dict) :
  StronglySorted date_le l -> sort_text l = l.
Proof.
  induction 1 as [|x l Hl IH Hx]; simpl; [done|]. rewrite IH.
  destruct Hx as [|y l Hy _]; simpl; [done|].
  apply leb_not_ltb in Hy. by rewrite Hy.
Qed.

Lemma py_lt_text (a b : dict) :
  text_dated a -> text_dated b ->
  py_lt (date_key a) (date_key b) =
  Done (String.ltb (date_text a) (date_text b)).
Proof.
  intros Ha Hb. by rewrite (date_text_key _ Ha), (date_text_key _ Hb).
Qed.

Lemma insert_keyed_text (x : dict) (l : list dict) :
  text_dated x -> Forall text_dated l ->
  insert_keyed (date_key x, x) (map (fun e => (date_key e, e)) l) =
  Done (map (fun e => (date_key e, e)) (insert_text x l)).
Proof.
  intros Hx. induction 1 as [|y l Hy Hl IH]; simpl; [done|].
  rewrite (py_lt_text _ _ Hy Hx). simpl.
  destruct (String.ltb (date_text y) (date_text x)); [|done].
  by rewrite IH.
Qed.

Lemma sort_keyed_text (l : list dict) :
  Forall text_dated l ->
  sort_keyed (map (fun e => (date_key e, e)) l) =
  Done (map (fun e => (date_key e, e)) (sort_text l)).
Proof.
  induction 1 as [|x l Hx Hl IH]; simpl; [done|]. rewrite IH. simpl.
  apply insert_keyed_text; [done|].
  eapply Permutation_Forall; [apply sort_text_perm|done].
Qed.

(** On events dated with text, [sorted_events] raises nothing and is the
    stable insertion sort on the date texts. *)
Lemma sorted_events_text (events : list dict) :
  Forall text_dated events -> sorted_events events = Done (sort_text events).
Proof.
  intros H. unfold sorted_events. rewrite (sort_keyed_text _ H). simpl.
  f_equal. rewrite map_map. simpl. apply map_id.
Qed.

Example sorted_events_sample :
  sorted_events [event_a; event_b] = Done [event_b; event_a].
Proof. vm_compute. reflexivity. Qed.

Example sorted_events_undated_first :
  sorted_events [event_a; event_undated; event_b] =
  Done [event_undated; event_b; event_a].
Proof. vm_compute. reflexivity. Qed.

(** Outside the data model: a [date] that is [null] cannot be compared with
    a string, and the sort raises. *)
Example sorted_events_null_date :
  sorted_events [event_a; {[ "date" := VNull ]}] = Raised TypeError.
Proof. vm_compute. reflexivity. Qed.

(** C5: on events whose [date] field is absent or a string,
    [sorted_events] returns the events ordered by lexicographic comparison
    of their [date] fields: the result is a permutation of the input, the
    [date] field of each event is at most that of every later event, an
    event without [date] field has the empty string as its sort key, and
    nothing with a non-empty date comes before it. *)
Theorem sorted_events_by_date (events : list dict) :
  Forall text_dated events ->
  exists sorted,
    sorted_events events = Done sorted /\
    Permutation events sorted /\
    StronglySorted date_le sorted /\
    (forall e, e !! "date" = None -> date_key e = VStr "") /\
    (forall before b after a,
       sorted = (before ++ b :: after)%list -> a ∈ after ->
       a !! "date" = None -> date_text b = "").
Proof.
  intros Htext. exists (sort_text events).
  split; [by apply sorted_events_text|].
  split; [apply sort_text_perm|].
  split; [apply sort_text_sorted|].
  split.
  { intros e He. unfold date_key, get_default. by rewrite He. }
  intros before b after a Heq Ha Hnone.
  pose proof (sort_text_sorted events) as Hs. rewrite Heq in Hs.
  apply StronglySorted_app_1_r, StronglySorted_inv in Hs as [_ Hb].
  rewrite Forall_forall in Hb. specialize (Hb a Ha). unfold date_le in Hb.
  rewrite (date_text_missing a Hnone) in Hb. by apply leb_empty_inv.
Qed.

Lemma sample_events_text_dated :
  Forall text_dated [event_a; event_undated; event_b].
Proof.
  constructor; [right; by exists "1900-01-01"|].
  constructor; [by left|].
  constructor; [right; by exists "1850-05-05"|].
  constructor.
Qed.

Lemma sorted_events_by_date_witness :
  exists sorted,
    sorted_events [event_a; event_undated; event_b] = Done sorted /\
    Permutation [event_a; event_undated; event_b] sorted /\
    StronglySorted date_le sorted /\
    (forall e, e !! "date" = None -> date_key e = VStr "") /\
    (forall before b after a,
       sorted = (before ++ b :: after)%list -> a ∈ after ->
       a !! "date" = None -> date_text b = "").
Proof.
  exact (sorted_events_by_date [event_a; event_undated; event_b]
           sample_events_text_dated).
Defined.

(** C6: on events whose [date] field is absent or a string,
    [sorted_events] is stable, the events whose [date] fields hold the same
    string come out in their input order, and idempotent, sorting the sorted
    list returns it unchanged. *)
Theorem sorted_events_stable_idempotent (events : list dict) :
  Forall text_dated events ->
  exists sorted,
    sorted_events events = Done sorted /\
    (forall k, filter (fun e => date_text e = k) sorted =
               filter (fun e => date_text e = k) events) /\
    sorted_events sorted = Done sorted.
Proof.
  intros Htext. exists (sort_text events).
  split; [by apply sorted_events_text|].
  split; [intros k; apply sort_text_filter|].
  rewrite sorted_events_text.
  - f_equal. apply sort_text_fixed, sort_text_sorted.
  - eapply Permutation_Forall; [apply sort_text_perm|done].
Qed.

Lemma equal_dates_text_dated :
  Forall text_dated [event_a_later; event_b; event_a].
Proof.
  constructor; [right; by exists "1900-01-01"|].
  constructor; [right; by exists "1850-05-05"|].
  constructor; [right; by exists "1900-01-01"|].
  constructor.
Qed.

Lemma sorted_events_stable_idempotent_witness :
  exists sorted,
    sorted_events [event_a_later; event_b; event_a] = Done sorted /\
    (forall k, filter (fun e => date_text e = k) sorted =
               filter (fun e => date_text e = k)
                 [event_a_later; event_b; event_a]) /\
    sorted_events sorted = Done sorted.
Proof.
  exact (sorted_events_stable_idempotent [event_a_later; event_b; event_a]
           equal_dates_text_dated).
Defined.

(** Two events on one date keep the order of the input, whichever comes
    first there. *)
Example sorted_events_equal_dates :
  sorted_events [event_a_later; event_b; event_a] =
  Done [event_b; event_a_later; event_a] /\
  sorted_events [event_a; event_b; event_a_later] =
  Done [event_b; event_a; event_a_later].
Proof. split; vm_compute; reflexivity. Qed.

(** * Further properties of the tree builder *)

Section provenance.

Variable people : list dict.
Variable start : string.
Variable max_generations : Z.

Lemma trace_initial : trace_inv people start max_generations initial_state.
Proof.
  split; simpl.
  - intros t h Hin%list_elem_of_singleton. discriminate.
  - intros n lab person Hin%list_elem_of_singleton. discriminate.
  - by intros n ?%elem_of_nil.
  - by intros n ?%elem_of_nil.
Qed.

Lemma trace_node (st : build_state) (pid : string) (lab : value) (g : Z) :
  trace_inv people start max_generations st ->
  called people start pid g st -> g <= max_generations ->
  (forall g', lineage people start g' pid -> 0 <= g') ->
  (forall person, get_person_by_id people pid = Some person ->
                  person !! "full_name" = Some lab) ->
  trace_inv people start max_generations (emit (Node pid lab) (mark pid st)).
Proof.
  intros [He Hl Hk Hg] [Hfrom Hlin] Hmax Hpos Hlab. split; simpl.
  - intros t h [Hin|Hin%list_elem_of_singleton]%elem_of_app; [eauto|done].
  - intros n l person [Hin|Hin%list_elem_of_singleton]%elem_of_app; [eauto|].
    injection Hin as -> ->. apply Hlab.
  - intros n. rewrite node_names_snoc_node.
    intros [Hin|Hin%list_elem_of_singleton]%elem_of_app.
    + destruct (Hk n Hin) as [->|[h Hh]]; [by left|right].
      exists h. apply elem_of_app. by left.
    + subst n. destruct Hfrom as [->|[h Hh]]; [by left|right].
      exists h. apply elem_of_app. by left.
  - intros n. rewrite node_names_snoc_node.
    intros [Hin|Hin%list_elem_of_singleton]%elem_of_app; [eauto|].
    subst n. exists g. split; [|done]. split; [eauto|done].
Qed.

Lemma trace_edge (st : build_state) (t h : string) (person : dict) :
  trace_inv people start max_generations st ->
  get_person_by_id people h = Some person -> t ∈ parent_ids person ->
  trace_inv people start max_generations (emit (Edge t h) st).
Proof.
  intros [He Hl Hk Hg] Hget Ht. split; simpl.
  - intros t' h' [Hin|Hin%list_elem_of_singleton]%elem_of_app; [eauto|].
    injection Hin as -> ->. eauto.
  - intros n l q [Hin|Hin%list_elem_of_singleton]%elem_of_app; [eauto|done].
  - intros n. rewrite node_names_snoc_edge. intros Hin.
    destruct (Hk n Hin) as [->|[h' Hh]]; [by left|right].
    exists h'. apply elem_of_app. by left.
  - intros n. rewrite node_names_snoc_edge. eauto.
Qed.

Lemma lineage_nonneg (g : Z) (pid : string) :
  lineage people start g pid -> 0 <= g.
Proof. induction 1; lia. Qed.

Lemma add_node_trace (fuel : nat) :
  forall pid g st st',
    add_node people max_generations fuel pid g st = Done st' ->
    trace_inv people start max_generations st ->
    called people start pid g st ->
    trace_inv people start max_generations st'.
Proof.
  induction fuel as [|fuel IH]; intros pid g st st' H Hinv Hcall;
    [discriminate|].
  apply add_node_cases in H
    as [[-> _]|(Hv & Hg & [[Hget ->]|(person & label & Hget & Hn & _ & Hloop)])].
  - done.
  - eapply trace_node; [done..| |congruence].
    intros g'. apply lineage_nonneg.
  - revert Hloop.
    apply (for_each_preserves _ (trace_inv people start max_generations)).
    + eapply trace_node; [done..| |congruence].
      intros g'. apply lineage_nonneg.
    + intros x s1 s2 Hx Hs1 Hrun. rewrite visit_parent_eq in Hrun.
      eapply IH; [done| |].
      * by eapply trace_edge.
      * split.
        -- right. exists pid. simpl. apply elem_of_app. right. left.
        -- destruct Hcall as [_ Hlin]. by eapply lineage_parent.
Qed.

Lemma for_each_grows (fuel : nat) (pid : string) (g : Z) (ps : list string)
    (st st' : build_state) :
  for_each (visit_parent people max_generations fuel pid g) ps st = Done st' ->
  visited st ⊆ visited st' /\ body st `prefix_of` body st'.
Proof.
  apply (for_each_preserves _
    (fun s => visited st ⊆ visited s /\ body st `prefix_of` body s)); [done|].
  intros x s1 s2 _ [Hv Hp] Hrun. rewrite visit_parent_eq in Hrun.
  apply add_node_grows in Hrun as (Hv' & Hp' & _). simpl in Hv', Hp'.
  split; [set_solver|]. etrans; [done|]. etrans; [|done].
  by apply prefix_app_r.
Qed.

(** Every identifier newly visited by a call that is the identifier of a
    record has, when the call returns, the edges from all the parents the
    record names. *)
Lemma add_node_complete (fuel : nat) :
  forall pid g st st',
    add_node people max_generations fuel pid g st = Done st' ->
    forall n person t,
      n ∈ visited st' -> n ∉ visited st ->
      get_person_by_id people n = Some person -> t ∈ parent_ids person ->
      Edge t n ∈ body st'.
Proof.
  induction fuel as [|fuel IH]; intros pid g st st' H; [discriminate|].
  apply add_node_cases in H
    as [[-> _]|(Hv & Hg & [[Hget ->]|(person & label & Hget & _ & _ & Hloop)])].
  - intros n person t Hin Hnot. done.
  - intros n person t Hin Hnot Hn. simpl in Hin.
    assert (n = pid) as -> by set_solver. congruence.
  - intros n q t Hin Hnot Hq Ht.
    destruct (decide (n = pid)) as [->|Hne].
    { assert (q = person) as -> by congruence.
      by apply (for_each_parents_done _ _ _ _ _ _ _ _ Hloop t). }
    revert Hloop n q t Hin Hnot Hq Ht Hne.
    apply (for_each_preserves _
      (fun s => forall n q t,
         n ∈ visited s -> n ∉ visited st ->
         get_person_by_id people n = Some q -> t ∈ parent_ids q ->
         n <> pid -> Edge t n ∈ body s)).
    + simpl. intros n q t Hin Hnot. set_solver.
    + intros x s1 s2 _ Hs1 Hrun n q t Hin Hnot Hq Ht Hne.
      rewrite visit_parent_eq in Hrun.
      pose proof (add_node_grows _ _ _ _ _ _ _ Hrun) as (_ & Hpre & _).
      destruct (decide (n ∈ visited s1)) as [Hold|Hnew].
      * eapply elem_of_prefix; [|done]. simpl. apply elem_of_app. left.
        by eapply Hs1.
      * by eapply (IH _ _ _ _ Hrun).
Qed.

Lemma edges_app (g k : list stmt) : edges (g ++ k) = (edges g ++ edges k)%list.
Proof. unfold edges. apply omap_app. Qed.

Lemma appends_refl (st : build_state) : appends st st.
Proof. exists []. split; [by rewrite app_nil_r|constructor]. Qed.

Lemma appends_trans (a b c : build_state) :
  visited a ⊆ visited b -> appends a b -> appends b c -> appends a c.
Proof.
  intros Hsub (k1 & E1 & H1) (k2 & E2 & H2). exists (k1 ++ k2)%list. split.
  - by rewrite E2, E1, app_assoc.
  - rewrite edges_app. apply Forall_app. split; [done|].
    eapply Forall_impl; [done|]. simpl. set_solver.
Qed.

Lemma add_node_appends (fuel : nat) :
  forall pid g st st',
    add_node people max_generations fuel pid g st = Done st' -> appends st st'.
Proof.
  induction fuel as [|fuel IH]; intros pid g st st' H; [discriminate|].
  apply add_node_cases in H
    as [[-> _]|(Hv & Hg & [[Hget ->]|(person & label & _ & _ & _ & Hloop)])].
  - apply appends_refl.
  - exists [Node pid (VStr pid)]. split; [done|constructor].
  - cut (appends st st' /\ {[pid]} ∪ visited st ⊆ visited st'); [tauto|].
    revert Hloop.
    apply (for_each_preserves _
      (fun s => appends st s /\ {[pid]} ∪ visited st ⊆ visited s)).
    + split; [|done]. exists [Node pid label]. split; [done|constructor].
    + intros x s1 s2 _ [Hs1 Hsub] Hrun. rewrite visit_parent_eq in Hrun.
      pose proof (add_node_grows _ _ _ _ _ _ _ Hrun) as (Hsub' & _).
      simpl in Hsub'. split; [|set_solver].
      apply (appends_trans _ (emit (Edge x pid) s1)); [simpl; set_solver| |].
      * destruct Hs1 as (k & E & Hk). exists (k ++ [Edge x pid])%list. split.
        -- simpl. by rewrite E, app_assoc.
        -- rewrite edges_app. apply Forall_app. split; [done|].
           by repeat constructor.
      * by eapply IH.
Qed.

Lemma edges_into_app (n : string) (g k : list stmt) :
  edges_into n (g ++ k) = (edges_into n g ++ edges_into n k)%list.
Proof. unfold edges_into. by rewrite edges_app, filter_app. Qed.

Lemma edges_into_fresh (n : string) (k : list stmt) :
  Forall (fun e => e.2 <> n) (edges k) -> edges_into n k = [].
Proof.
  unfold edges_into. induction 1 as [|e l He _ IH]; [done|].
  rewrite filter_cons. by case_decide.
Qed.

(** A call leaves the edges into the identifiers visited before it as they
    are. *)
Lemma add_node_edges_into_old (fuel : nat) (pid : string) (g : Z)
    (st st' : build_state) (n : string) :
  add_node people max_generations fuel pid g st = Done st' ->
  n ∈ visited st ->
  edges_into n (body st') = edges_into n (body st).
Proof.
  intros (k & -> & Hk)%add_node_appends Hn.
  rewrite edges_into_app, (edges_into_fresh n k), app_nil_r; [done|].
  eapply Forall_impl; [done|]. simpl. intros e He Heq. apply He.
  by rewrite Heq.
Qed.

(** Every identifier newly visited by a call has, when the call returns,
    exactly the edges from its parents, in the order of the parent list. *)
Lemma add_node_edges_into_new (fuel : nat) :
  forall pid g st st',
    add_node people max_generations fuel pid g st = Done st' ->
    graph_inv people st ->
    forall n, n ∈ visited st' -> n ∉ visited st ->
      edges_into n (body st') = (fun t => (t, n)) <$> parents_of people n.
Proof.
  induction fuel as [|fuel IH]; intros pid g st st' H Hinv; [discriminate|].
  assert (forall n, n ∉ visited st -> edges_into n (body st) = []) as Hnone.
  { intros n Hn. apply edges_into_fresh, Forall_forall.
    intros [t h] Hin Heq. simpl in Heq. subst h.
    by apply Hn, (inv_heads _ _ Hinv t). }
  apply add_node_cases in H
    as [[-> _]|(Hv & Hg & [[Hget ->]|(person & label & Hget & _ & _ & Hloop)])].
  - intros n Hin Hnot. done.
  - intros n Hin Hnot. simpl in Hin. assert (n = pid) as -> by set_solver.
    unfold parents_of. rewrite Hget. simpl.
    rewrite edges_into_app, (Hnone pid Hv). done.
  - cut (graph_inv people st' /\ pid ∈ visited st' /\
         edges_into pid (body st') = (fun t => (t, pid)) <$> parent_ids person /\
         forall n, n ∈ visited st' -> n ∉ visited st -> n <> pid ->
           edges_into n (body st') = (fun t => (t, n)) <$> parents_of people n).
    { intros (_ & _ & Hpid & Hrest) n Hin Hnot.
      destruct (decide (n = pid)) as [->|Hne]; [|by apply Hrest].
      unfold parents_of. by rewrite Hget. }
    revert Hloop.
    apply (for_each_ind _
      (fun done s =>
         graph_inv people s /\ pid ∈ visited s /\
         edges_into pid (body s) = (fun t => (t, pid)) <$> done /\
         forall n, n ∈ visited s -> n ∉ visited st -> n <> pid ->
           edges_into n (body s) = (fun t => (t, n)) <$> parents_of people n)).
    + split; [apply inv_node; [done..|congruence]|].
      split; [simpl; set_solver|]. split.
      * simpl. rewrite edges_into_app, (Hnone pid Hv). done.
      * simpl. intros n Hin Hnot Hne. set_solver.
    + intros done x rest s1 s2 _ (Hs1 & Hpid & Hdone & Hrest) Hrun.
      rewrite visit_parent_eq in Hrun.
      assert (graph_inv people (emit (Edge x pid) s1)) as Hs1'
        by by apply inv_edge.
      pose proof (add_node_grows _ _ _ _ _ _ _ Hrun) as (Hsub & _).
      simpl in Hsub.
      split; [by eapply add_node_inv|]. split; [set_solver|]. split.
      * rewrite (add_node_edges_into_old _ _ _ _ _ pid Hrun) by done.
        simpl. rewrite edges_into_app, Hdone, fmap_app. f_equal.
        unfold edges_into. simpl. by rewrite filter_cons_True.
      * intros n Hin Hnot Hne.
        destruct (decide (n ∈ visited s1)) as [Hold|Hnew].
        -- rewrite (add_node_edges_into_old _ _ _ _ _ n Hrun) by done.
           simpl. rewrite edges_into_app, (Hrest n Hold Hnot Hne).
           rewrite (edges_into_fresh n [Edge x pid]), app_nil_r; [done|].
           repeat constructor. simpl. congruence.
        -- by apply (IH _ _ _ _ Hrun Hs1').
Qed.

Lemma add_node_raises (fuel : nat) :
  forall pid g st e,
    add_node people max_generations fuel pid g st = Raised e ->
    (e = KeyError "full_name" /\
     exists p, p ∈ people /\ p !! "full_name" = None) \/
    (e = TypeError /\
     exists p, p ∈ people /\ p !! "parents" = Some VNull).
Proof.
  induction fuel as [|fuel IH]; intros pid g st e; [discriminate|].
  rewrite add_node_S.
  destruct (bool_decide (pid ∈ visited st) || (g >? max_generations));
    [discriminate|].
  destruct (get_person_by_id people pid) as [person|] eqn:Hget;
    [|discriminate].
  apply get_person_by_id_elem in Hget as [Hin _].
  destruct (person !! "full_name") as [label|] eqn:Hn.
  - rewrite (index_some _ _ _ Hn). simpl.
    destruct (decide (person !! "parents" = Some VNull)) as [Hp|Hp].
    { rewrite (iterate_null _ Hp). simpl. intros [= <-]. right. eauto. }
    rewrite (iterate_parent_ids _ Hp). simpl.
    generalize (emit (Node pid label) (mark pid st)).
    induction (parent_ids person) as [|x ps IHps]; intros s; [discriminate|].
    simpl. destruct (visit_parent people max_generations fuel pid g x s)
      as [s1|e'|] eqn:Hx; simpl.
    + apply IHps.
    + intros [= <-]. rewrite visit_parent_eq in Hx. by eapply IH.
    + discriminate.
  - rewrite (index_none _ _ Hn). simpl. intros [= <-]. left. eauto.
Qed.

End provenance.

Lemma build_graph_trace (people : list dict) (start_id : string)
    (max_generations : Z) (g : list stmt) :
  build_graph people start_id max_generations = Done g ->
  exists st, g = body st /\ graph_inv people st /\
             trace_inv people start_id max_generations st.
Proof.
  intros (st & Hrun & -> & Hinv)%build_graph_done. exists st.
  split; [done|]. split; [done|].
  eapply add_node_trace; [done|apply trace_initial|].
  split; [by left|constructor].
Qed.

(** In the graph returned, the edges that point to a node are exactly the
    edges from the parents named by the record of the node, one per entry of
    the parent list and in its order; a node that resolves to no record has
    no edge pointing to it. *)
Theorem build_graph_edges_into_nodes (people : list dict) (start_id : string)
    (max_generations : Z) (g : list stmt) :
  build_graph people start_id max_generations = Done g ->
  Forall (fun n => edges_into n g = (fun t => (t, n)) <$> parents_of people n)
    (node_names g).
Proof.
  intros (st & Hrun & -> & Hinv)%build_graph_done.
  apply Forall_forall. intros n Hn%(inv_nodes _ _ Hinv).
  eapply add_node_edges_into_new; [done|apply inv_initial|done|].
  simpl. set_solver.
Qed.

Lemma build_graph_edges_into_nodes_witness :
  Forall (fun n =>
            edges_into n [Attr "rankdir" "TB"; Node "p1" (VStr "Ann");
                          Edge "p2" "p1"; Node "p2" (VStr "Bob")] =
            (fun t => (t, n)) <$> parents_of [ann; bob] n)
    (node_names [Attr "rankdir" "TB"; Node "p1" (VStr "Ann");
                 Edge "p2" "p1"; Node "p2" (VStr "Bob")]).
Proof.
  exact (build_graph_edges_into_nodes [ann; bob] "p1" 5 _ build_graph_sample).
Defined.

(** In the graph returned, every edge points to an identifier that has a
    node statement (the parent end may have none, when it lies beyond the
    generation bound). *)
Theorem build_graph_edge_child_is_node (people : list dict)
    (start_id : string) (max_generations : Z) (g : list stmt) :
  build_graph people start_id max_generations = Done g ->
  Forall (fun e => e.2 ∈ node_names g) (edges g).
Proof.
  intros (st & Hrun & -> & Hinv)%build_graph_done.
  apply Forall_forall. intros [t h] Hin. simpl.
  apply (inv_nodes _ _ Hinv). by apply (inv_heads _ _ Hinv t).
Qed.

Lemma build_graph_edge_child_is_node_witness :
  Forall (fun e => e.2 ∈ node_names [Attr "rankdir" "TB";
                                     Node "p1" (VStr "Ann");
                                     Edge "p2" "p1"; Node "p2" (VStr "Bob")])
    (edges [Attr "rankdir" "TB"; Node "p1" (VStr "Ann");
            Edge "p2" "p1"; Node "p2" (VStr "Bob")]).
Proof.
  exact (build_graph_edge_child_is_node [ann; bob] "p1" 5 _ build_graph_sample).
Defined.



(** In the graph returned, a node whose identifier resolves is labelled with
    the [full_name] of the first record carrying the identifier, and a node
    whose identifier resolves to no record is labelled with the identifier. *)
Theorem build_graph_labels (people : list dict) (start_id : string)
    (max_generations : Z) (g : list stmt) :
  build_graph people start_id max_generations = Done g ->
  Forall (label_ok people) g.
Proof.
  intros (st & -> & Hinv & Htr)%build_graph_trace.
  apply Forall_forall. intros [a v|n lab|t h] Hin; simpl; try done.
  destruct (get_person_by_id people n) as [person|] eqn:Hget.
  - by eapply (tr_labels _ _ _ _ Htr).
  - by eapply (inv_labels _ _ Hinv).
Qed.

Lemma build_graph_labels_witness :
  Forall (label_ok [ann; bob])
    [Attr "rankdir" "TB"; Node "p1" (VStr "Ann"); Edge "p2" "p1";
     Node "p2" (VStr "Bob")].
Proof. exact (build_graph_labels [ann; bob] "p1" 5 _ build_graph_sample). Defined.

(** In the graph returned, every node is within [max_generations] parent
    hops of the start person. *)
Theorem build_graph_within_generations (people : list dict)
    (start_id : string) (max_generations : Z) (g : list stmt) :
  build_graph people start_id max_generations = Done g ->
  Forall (fun n => exists k, 0 <= k <= max_generations /\
                             lineage people start_id k n) (node_names g).
Proof.
  intros (st & -> & _ & Htr)%build_graph_trace.
  apply Forall_forall. intros n Hn. by apply (tr_lineage _ _ _ _ Htr).
Qed.

Lemma build_graph_within_generations_witness :
  Forall (fun n => exists k, 0 <= k <= 5 /\ lineage [ann; bob] "p1" k n)
    (node_names [Attr "rankdir" "TB"; Node "p1" (VStr "Ann");
                 Edge "p2" "p1"; Node "p2" (VStr "Bob")]).
Proof.
  exact (build_graph_within_generations [ann; bob] "p1" 5 _ build_graph_sample).
Defined.

(** With a negative generation bound not even the start person is
    expanded: the graph has no node and no edge. *)
Theorem build_graph_negative_bound (people : list dict) (start_id : string)
    (max_generations : Z) :
  max_generations < 0 ->
  build_graph people start_id max_generations = Done [Attr "rankdir" "TB"].
Proof.
  intros Hneg. unfold build_graph, build_graph_fuel. rewrite add_node_S.
  replace (0 >? max_generations) with true by lia.
  by rewrite orb_true_r.
Qed.

Lemma build_graph_negative_bound_witness :
  build_graph [ann; bob] "p1" (-1) = Done [Attr "rankdir" "TB"].
Proof. apply (build_graph_negative_bound [ann; bob] "p1" (-1)). lia. Defined.

(** With a non-negative generation bound the graph returned starts with the
    node of the start person, and that node is there whatever the bound. *)
Theorem build_graph_starts_with_start (people : list dict)
    (start_id : string) (max_generations : Z) (g : list stmt) :
  0 <= max_generations ->
  build_graph people start_id max_generations = Done g ->
  exists label rest,
    g = Attr "rankdir" "TB" :: Node start_id label :: rest.
Proof.
  intros Hmax (st & Hrun & -> & _)%build_graph_done.
  apply add_node_cases in Hrun
    as [[_ [Hv|Hlt]]|(_ & _ & [[_ ->]|(q & label & _ & _ & _ & Hloop)])];
    [set_solver|lia|by eexists _, []|].
  apply for_each_grows in Hloop as [_ [rest Hrest]]. simpl in Hrest.
  exists label, rest. by rewrite Hrest.
Qed.

Lemma build_graph_starts_with_start_witness :
  exists label rest,
    [Attr "rankdir" "TB"; Node "p1" (VStr "Ann"); Edge "p2" "p1";
     Node "p2" (VStr "Bob")] =
    Attr "rankdir" "TB" :: Node "p1" label :: rest.
Proof.
  apply (build_graph_starts_with_start [ann; bob] "p1" 5); [lia|].
  exact build_graph_sample.
Defined.

(** A start person whose record names no parent gives, for every
    non-negative generation bound, the graph with the single node of the
    start person and no edge. *)
Theorem build_graph_no_parents (people : list dict) (start_id : string)
    (max_generations : Z) (person : dict) (label : value) :
  0 <= max_generations ->
  get_person_by_id people start_id = Some person ->
  person !! "full_name" = Some label ->
  person !! "parents" <> Some VNull ->
  parent_ids person = [] ->
  build_graph people start_id max_generations =
  Done [Attr "rankdir" "TB"; Node start_id label].
Proof.
  intros Hmax Hget Hn Hp Hnil. unfold build_graph, build_graph_fuel.
  rewrite add_node_S, Hget, (index_some _ _ _ Hn), (iterate_parent_ids _ Hp).
  rewrite bool_decide_eq_false_2 by set_solver.
  replace (0 >? max_generations) with false by lia. by rewrite Hnil.
Qed.

Lemma bob_found : get_person_by_id [ann; bob] "p2" = Some bob.
Proof. apply get_person_by_id_sample. Qed.

Lemma bob_name : bob !! "full_name" = Some (VStr "Bob").
Proof. vm_compute. reflexivity. Qed.

Lemma bob_parents : bob !! "parents" <> Some VNull.
Proof. vm_compute. discriminate. Qed.

Lemma build_graph_no_parents_witness :
  build_graph [ann; bob] "p2" 3 =
  Done [Attr "rankdir" "TB"; Node "p2" (VStr "Bob")].
Proof.
  apply (build_graph_no_parents [ann; bob] "p2" 3 bob (VStr "Bob")).
  - lia.
  - exact bob_found.
  - exact bob_name.
  - exact bob_parents.
  - reflexivity.
Defined.

(** The exceptions of [build_graph] on the modelled field values. *)
Lemma build_graph_raised_cases (people : list dict) (start_id : string)
    (max_generations : Z) (e : exn) :
  build_graph people start_id max_generations = Raised e ->
  (e = KeyError "full_name" /\
   exists p, p ∈ people /\ p !! "full_name" = None) \/
  (e = TypeError /\
   exists p, p ∈ people /\ p !! "parents" = Some VNull).
Proof.
  unfold build_graph, build_graph_fuel.
  destruct (add_node _ _ _ _ _ _) as [st|e'|] eqn:Hrun; try discriminate.
  intros [= <-]. by eapply add_node_raises.
Qed.

(** A [KeyError] out of [build_graph] is on the key [full_name], and some
    record of the collection has no [full_name]. *)
Theorem build_graph_key_error (people : list dict) (start_id : string)
    (max_generations : Z) (key : string) :
  build_graph people start_id max_generations = Raised (KeyError key) ->
  key = "full_name" /\ exists p, p ∈ people /\ p !! "full_name" = None.
Proof.
  intros [[Hkey Hp]|[Hkey _]]%build_graph_raised_cases; [|discriminate].
  by injection Hkey as ->.
Qed.

Lemma build_graph_carl : build_graph [carl] "p3" 5 = Raised (KeyError "full_name").
Proof. vm_compute. reflexivity. Qed.

Lemma build_graph_key_error_witness :
  "full_name" = "full_name" /\
  exists p, p ∈ [carl] /\ p !! "full_name" = None.
Proof.
  exact (build_graph_key_error [carl] "p3" 5 "full_name" build_graph_carl).
Defined.

Lemma ann_found_in_pair : get_person_by_id [ann; bob] "p1" = Some ann.
Proof. vm_compute. reflexivity. Qed.

Lemma ann_name : ann !! "full_name" = Some (VStr "Ann").
Proof. vm_compute. reflexivity. Qed.

Lemma ann_parents : ann !! "parents" <> Some VNull.
Proof. vm_compute. discriminate. Qed.

Lemma build_graph_zero_generations_witness :
  build_graph [ann; bob] "p1" 0 =
  Done ([Attr "rankdir" "TB"; Node "p1" (VStr "Ann")] ++
        map (fun parent_id => Edge parent_id "p1") (parent_ids ann))%list.
Proof.
  exact (build_graph_zero_generations [ann; bob] "p1" ann (VStr "Ann")
           ann_found_in_pair ann_name ann_parents).
Defined.

(** * Further properties of the lookup service *)

(** [get_person_by_id] returns a record exactly when that record is the
    earliest one of the collection carrying the identifier: a later record
    with the same identifier is never returned, and a record whose [id] is
    missing or is not a string matches nothing. *)
Theorem get_person_by_id_earliest (people : list dict) (pid : string)
    (p : dict) :
  get_person_by_id people pid = Some p <->
  exists before after,
    people = (before ++ p :: after)%list /\
    p !! "id" = Some (VStr pid) /\
    Forall (fun q => q !! "id" <> Some (VStr pid)) before.
Proof. apply get_person_by_id_first. Qed.

(** [link_person] raises exactly when the identifier resolves to a record
    without [full_name], and what it raises is [KeyError] on that key. *)
Theorem link_person_raises_iff (py_str : value -> string)
    (people : list dict) (pid : string) (e : exn) :
  link_person py_str people pid = Raised e <->
  e = KeyError "full_name" /\
  exists p, get_person_by_id people pid = Some p /\ p !! "full_name" = None.
Proof.
  destruct (get_person_by_id people pid) as [p|] eqn:Hget.
  - rewrite (link_person_found _ _ _ _ Hget).
    destruct (p !! "full_name") as [name|] eqn:Hn.
    + rewrite (index_some _ _ _ Hn). simpl. split; [discriminate|].
      intros (_ & q & [= <-] & Hq). congruence.
    + rewrite (index_none _ _ Hn). simpl. split.
      * intros [= <-]. eauto.
      * by intros [-> _].
  - unfold link_person. rewrite Hget. split; [discriminate|].
    by intros (_ & q & ? & _).
Qed.

Lemma ids_of_done (people : list dict) (ids : list value) :
  ids_of people = Done ids -> Forall2 (fun p i => p !! "id" = Some i) people ids.
Proof.
  revert ids. induction people as [|p people IH]; intros ids; simpl.
  - intros [= <-]. constructor.
  - destruct (p !! "id") as [i|] eqn:Hi;
      [rewrite (index_some _ _ _ Hi)|by rewrite (index_none _ _ Hi)].
    simpl. destruct (ids_of people) as [r| |]; simpl; try discriminate.
    intros [= <-]. constructor; auto.
Qed.

(** The identifiers offered by the select boxes of [main] are found again:
    when the list of identifiers is built without error, a string is one of
    them exactly when [get_person_by_id] resolves it, so a person chosen in
    a select box is never reported as not found. *)
Theorem ids_of_resolve (people : list dict) (ids : list value) (s : string) :
  ids_of people = Done ids ->
  VStr s ∈ ids <-> is_Some (get_person_by_id people s).
Proof.
  intros H%ids_of_done. split.
  - intros Hin. destruct (get_person_by_id people s) as [p|] eqn:Hget; [eauto|].
    apply get_person_by_id_none in Hget. exfalso.
    induction H as [|p i people ids Hp _ IH]; [by apply elem_of_nil in Hin|].
    apply Forall_cons in Hget as [Hnp Hrest].
    apply elem_of_cons in Hin as [<-|Hin]; [by apply Hnp|by apply IH].
  - intros [p (before & after & -> & Hp & _)%get_person_by_id_first].
    apply Forall2_app_inv_l in H as (ib & ia & _ & Hcons & ->).
    apply Forall2_cons_inv_l in Hcons as (i & ia' & Hi & _ & ->).
    unfold has_id in Hp. apply elem_of_app. right.
    assert (i = VStr s) as -> by congruence. left.
Qed.

Lemma ids_of_pair : ids_of [ann; bob] = Done [VStr "p1"; VStr "p2"].
Proof. vm_compute. reflexivity. Qed.

Lemma ids_of_resolve_witness :
  VStr "p2" ∈ [VStr "p1"; VStr "p2"] <->
  is_Some (get_person_by_id [ann; bob] "p2").
Proof. exact (ids_of_resolve [ann; bob] _ "p2" ids_of_pair). Defined.

(** * Properties of the page set-up *)

Lemma py_index_Some (x : value) (ids : list value) (i : nat) :
  py_index x ids = Some i ->
  ids !! i = Some x /\ forall j, (j < i)%nat -> ids !! j <> Some x.
Proof.
  revert i. induction ids as [|y ids IH]; intros i; simpl; [discriminate|].
  case_decide as Hy.
  - intros [= <-]. split; [by subst|]. intros j Hj. lia.
  - destruct (py_index x ids) as [k|]; simpl; [|discriminate].
    intros [= <-]. destruct (IH k eq_refl) as [Hk Hmin]. split; [done|].
    intros [|j] Hj; simpl; [congruence|]. apply Hmin. lia.
Qed.

Lemma py_index_elem (x : value) (ids : list value) :
  x ∈ ids -> is_Some (py_index x ids).
Proof.
  induction ids as [|y ids IH]; [by intros ?%elem_of_nil|].
  simpl. case_decide as Hy; [eauto|].
  intros [->|Hin]%elem_of_cons; [done|].
  destruct (IH Hin) as [k ->]. simpl. eauto.
Qed.

Lemma py_index_head (y : value) (ids : list value) :
  py_index y (y :: ids) = Some O.
Proof. simpl. by case_decide. Qed.

Lemma tree_index_truthy (ids : list value) (s : string) :
  s <> "" ->
  tree_index ids (Some s) =
  match py_index (VStr s) ids with Some i => i | None => O end.
Proof.
  intros Hs. unfold tree_index, param_truthy, param_value.
  by rewrite (proj2 (String.eqb_neq s "") Hs).
Qed.

Lemma tree_index_falsy (ids : list value) (param : option string) :
  param_truthy param = false -> tree_index ids param = O.
Proof.
  intros H. unfold tree_index. rewrite H.
  destruct ids as [|i ids]; [done|]. by rewrite py_index_head.
Qed.

(** The two pages with a select box agree on the entry selected at first:
    for every list of identifiers and every query parameter the Family Tree
    page and the Profiles page compute the same index. *)
Theorem tree_index_profile_index (ids : list value) (param : option string) :
  tree_index ids param = profile_index ids param.
Proof.
  unfold profile_index.
  destruct (param_truthy param) eqn:Ht.
  - destruct param as [s|]; [|done]. simpl in Ht.
    apply negb_true_iff, String.eqb_neq in Ht.
    rewrite (tree_index_truthy _ _ Ht). simpl.
    destruct (py_index (VStr s) ids) as [i|] eqn:Hi; [|done].
    simpl. rewrite (proj2 (String.eqb_neq s "") Ht). simpl. by rewrite Hi.
  - rewrite (tree_index_falsy _ _ Ht).
    destruct (py_index (param_value param) ids); [by rewrite Ht|done].
Qed.

(** The index passed to the select box is a position of the list of
    identifiers whenever that list is not empty. *)
Theorem tree_index_in_range (ids : list value) (param : option string) :
  ids <> [] -> (tree_index ids param < length ids)%nat.
Proof.
  intros Hne. unfold tree_index.
  destruct (py_index _ ids) as [i|] eqn:Hi.
  - apply py_index_Some in Hi as [Hi _]. by apply lookup_lt_Some in Hi.
  - destruct ids; [done|simpl; lia].
Qed.

Lemma tree_index_in_range_witness :
  (tree_index [VStr "p1"; VStr "p2"] (Some "p2") <
   length [VStr "p1"; VStr "p2"])%nat.
Proof. by apply (tree_index_in_range [VStr "p1"; VStr "p2"] (Some "p2")). Defined.

(** A non-empty query parameter that is one of the identifiers selects the
    first entry holding it; an absent or empty parameter, or one that is
    none of the identifiers, selects the first entry of the list. *)
Theorem tree_index_selects (ids : list value) (param : option string) :
  match param with
  | Some s =>
      if decide (s <> "" /\ VStr s ∈ ids) then
        ids !! tree_index ids param = Some (VStr s) /\
        forall j, (j < tree_index ids param)%nat -> ids !! j <> Some (VStr s)
      else tree_index ids param = O
  | None => tree_index ids param = O
  end.
Proof.
  destruct param as [s|]; [|by apply tree_index_falsy].
  case_decide as H.
  - destruct H as [Hs Hin]. rewrite (tree_index_truthy _ _ Hs).
    destruct (py_index_elem _ _ Hin) as [i Hi]. rewrite Hi.
    by apply py_index_Some.
  - destruct (decide (s = "")) as [->|Hs]; [by apply tree_index_falsy|].
    rewrite (tree_index_truthy _ _ Hs).
    destruct (py_index (VStr s) ids) as [i|] eqn:Hi; [|done].
    apply py_index_Some in Hi as [Hi _]. destruct H. split; [done|].
    by eapply list_elem_of_lookup_2.
Qed.

(** * Properties of the data store *)

Lemma load_json_fallback (fs : string -> source) (path : string)
    (records : list dict) :
  fallback (fs path) = Some records ->
  fst (load_json fs path) = Done records /\
  (length (snd (load_json fs path)) <= 1)%nat.
Proof.
  unfold load_json. destruct (fs path); simpl; intros [= <-]; auto.
Qed.

Lemma load_json_no_fallback (fs : string -> source) (path : string) :
  fallback (fs path) = None ->
  exists e, load_json fs path = (Raised e, []).
Proof.
  unfold load_json. destruct (fs path); simpl; try discriminate; eauto.
Qed.

(** The two sources degrade independently: when neither file is unreadable
    [load_data] returns both collections, each the parsed records or the
    empty list for a missing or malformed file, and passes at most two
    messages to [st.error]. *)
Theorem load_data_degrades (fs : string -> source) (data_dir : string)
    (people events : list dict) :
  fallback (fs (data_dir ++ "/people.json")) = Some people ->
  fallback (fs (data_dir ++ "/events.json")) = Some events ->
  fst (load_data fs data_dir) = Done (people, events) /\
  (length (snd (load_data fs data_dir)) <= 2)%nat.
Proof.
  intros [Hp Hnp]%load_json_fallback [He Hne]%load_json_fallback.
  unfold load_data.
  destruct (load_json fs (data_dir ++ "/people.json")) as [rp notes1].
  destruct (load_json fs (data_dir ++ "/events.json")) as [re notes2].
  simpl in *. subst rp re. simpl. split; [done|]. rewrite length_app. lia.
Qed.

Lemma load_data_degrades_witness :
  fst (load_data
         (fun path =>
            if String.eqb path "data/events.json" then Document [event_a]
            else Absent) "data") = Done ([], [event_a]) /\
  (length (snd (load_data
                  (fun path =>
                     if String.eqb path "data/events.json"
                     then Document [event_a] else Absent) "data")) <= 2)%nat.
Proof.
  by apply (load_data_degrades
              (fun path =>
                 if String.eqb path "data/events.json" then Document [event_a]
                 else Absent) "data" [] [event_a]).
Defined.

(** [load_data] returns exactly when neither file is unreadable; when the
    people file is unreadable the exception leaves before the events file
    is looked at, so no message is passed to [st.error]. *)
Theorem load_data_returns_iff (fs : string -> source) (data_dir : string) :
  ((exists r, fst (load_data fs data_dir) = Done r) <->
   is_Some (fallback (fs (data_dir ++ "/people.json"))) /\
   is_Some (fallback (fs (data_dir ++ "/events.json")))) /\
  (fallback (fs (data_dir ++ "/people.json")) = None ->
   exists e, load_data fs data_dir = (Raised e, [])).
Proof.
  unfold load_data.
  destruct (fallback (fs (data_dir ++ "/people.json"))) as [p|] eqn:Hp.
  - apply load_json_fallback in Hp as [Hp _].
    destruct (load_json fs (data_dir ++ "/people.json")) as [rp notes1].
    simpl in Hp. subst rp. split; [|discriminate].
    destruct (fallback (fs (data_dir ++ "/events.json"))) as [ev|] eqn:He.
    + apply load_json_fallback in He as [He _].
      destruct (load_json fs (data_dir ++ "/events.json")) as [re notes2].
      simpl in He. subst re. simpl. split; eauto.
    + apply load_json_no_fallback in He as [e ->]. simpl.
      split; [by intros [r ?]|]. by intros [_ [? ?]].
  - apply load_json_no_fallback in Hp as [e ->]. split; [|eauto].
    simpl. split; [by intros [r ?]|]. by intros [[? ?] _].
Qed.

(** * Further properties of the timeline sort *)

Lemma insert_keyed_perm (x : value * dict) (l r : list (value * dict)) :
  insert_keyed x l = Done r -> Permutation (x :: l) r.
Proof.
  revert r. induction l as [|y l IH]; intros r; simpl.
  - by intros [= <-].
  - destruct (py_lt y.1 x.1) as [[|]| |]; simpl; try discriminate.
    + destruct (insert_keyed x l) as [r'| |]; simpl; try discriminate.
      intros [= <-]. rewrite <- (IH r' eq_refl). apply perm_swap.
    + by intros [= <-].
Qed.

Lemma sort_keyed_perm (l r : list (value * dict)) :
  sort_keyed l = Done r -> Permutation l r.
Proof.
  revert r. induction l as [|x l IH]; intros r; simpl.
  - by intros [= <-].
  - destruct (sort_keyed l) as [s'| |]; simpl; try discriminate.
    intros H%insert_keyed_perm. rewrite <- H. constructor. by apply IH.
Qed.

(** Whatever the dates are, the list [sorted_events] returns holds the
    events of the input, each as often as the input does: sorting drops no
    event and invents none. *)
Theorem sorted_events_permutation (events sorted : list dict) :
  sorted_events events = Done sorted -> Permutation events sorted.
Proof.
  unfold sorted_events.
  destruct (sort_keyed _) as [r| |] eqn:Hr; simpl; try discriminate.
  intros [= <-]. apply sort_keyed_perm in Hr.
  apply (Permutation_map snd) in Hr. rewrite map_map in Hr. simpl in Hr.
  by rewrite map_id in Hr.
Qed.

Lemma sorted_events_permutation_witness :
  Permutation [event_a; event_b] [event_b; event_a].
Proof.
  exact (sorted_events_permutation [event_a; event_b] _ sorted_events_sample).
Defined.

Lemma insert_keyed_fuel (x : value * dict) (l : list (value * dict)) :
  insert_keyed x l = OutOfFuel -> False.
Proof.
  induction l as [|y l IH]; simpl; [discriminate|].
  destruct (py_lt y.1 x.1) as [[|]| |] eqn:Hlt; simpl; try discriminate.
  - destruct (insert_keyed x l); simpl; try discriminate. auto.
  - destruct y.1, x.1; discriminate.
Qed.

Lemma insert_keyed_type_error (x : value * dict) (l : list (value * dict))
    (e : exn) :
  insert_keyed x l = Raised e -> e = TypeError.
Proof.
  induction l as [|y l IH]; simpl; [discriminate|].
  destruct (py_lt y.1 x.1) as [[|]|e'|] eqn:Hlt; simpl; try discriminate.
  - destruct (insert_keyed x l); simpl; try discriminate.
    intros [= <-]. by apply IH.
  - intros [= <-]. destruct y.1, x.1; simpl in Hlt; congruence.
Qed.

Lemma sort_keyed_type_error (l : list (value * dict)) (e : exn) :
  sort_keyed l = Raised e -> e = TypeError.
Proof.
  revert e. induction l as [|x l IH]; intros e; simpl; [discriminate|].
  destruct (sort_keyed l) as [s'|e'|]; simpl; try discriminate.
  - apply insert_keyed_type_error.
  - intros [= <-]. by apply IH.
Qed.

Lemma sort_keyed_fuel (l : list (value * dict)) : sort_keyed l <> OutOfFuel.
Proof.
  induction l as [|x l IH]; simpl; [discriminate|].
  destruct (sort_keyed l) as [s'|e'|]; simpl; try done.
  intros H. by apply insert_keyed_fuel in H.
Qed.

(** The only exception [sorted_events] raises is [TypeError], from the
    comparison of two dates that are not both strings or both lists; a list
    of at most one event needs no comparison and is returned as it is,
    whatever its date. *)
Theorem sorted_events_errors (events : list dict) :
  (forall e, sorted_events events = Raised e -> e = TypeError) /\
  ((length events <= 1)%nat -> sorted_events events = Done events).
Proof.
  unfold sorted_events. split.
  - intros e.
    destruct (sort_keyed _) as [r|e'|] eqn:Hr; simpl; try discriminate.
    intros [= <-]. by eapply sort_keyed_type_error.
  - destruct events as [|x [|y events]]; simpl; try done. lia.
Qed.


(** * Properties of the timeline rendering *)

Lemma and_then_done (a b : rendering) (calls : list ui) (u : unit) :
  and_then a b = (calls, Done u) ->
  exists c1 c2 u1,
    a = (c1, Done u1) /\ b = (c2, Done u) /\ calls = (c1 ++ c2)%list.
Proof.
  destruct a as [c1 [u1| |]], b as [c2 o2]; unfold and_then; simpl;
    intros [= <- ->]. by eexists _, _, _.
Qed.


Lemma subheaders_app (c1 c2 : list ui) :
  subheaders (c1 ++ c2) = (subheaders c1 ++ subheaders c2)%list.
Proof. unfold subheaders. apply omap_app. Qed.

Lemma and_then_calls (a b : rendering) :
  (and_then a b).1 = a.1 \/ (and_then a b).1 = (a.1 ++ b.1)%list.
Proof. destruct a as [c1 [u1| |]]; unfold and_then; simpl; auto. Qed.

Lemma and_then_subheaders (a b : rendering) :
  subheaders b.1 = [] -> subheaders (and_then a b).1 = subheaders a.1.
Proof.
  intros Hb. destruct (and_then_calls a b) as [->| ->]; [done|].
  by rewrite subheaders_app, Hb, app_nil_r.
Qed.

Lemma render_involved_subheaders (py_str : value -> string)
    (people : list dict) (event : dict) :
  subheaders (render_involved py_str people event).1 = [].
Proof.
  unfold render_involved. destruct (truthy_value _); [|done].
  destruct (_ ≫= _) as [links| |]; simpl; try done.
  by destruct (bool_decide (links = [])).
Qed.

Lemma render_sources_subheaders (event : dict) :
  subheaders (render_sources event).1 = [].
Proof.
  unfold render_sources. destruct (truthy_value _); [|done].
  rewrite and_then_subheaders; [done|].
  destruct (_ ≫= _) as [sources| |]; simpl; try done.
  induction sources as [|src sources IH]; [done|]. cbn [foldr].
  by rewrite and_then_subheaders.
Qed.

Lemma render_event_subheaders (py_str : value -> string) (people : list dict)
    (event : dict) :
  subheaders (render_event py_str people event).1 =
  [get_default event "date" (VStr "Unknown date")].
Proof.
  unfold render_event. rewrite and_then_subheaders; [done|].
  rewrite and_then_subheaders; [done|].
  rewrite and_then_subheaders; [done|].
  rewrite and_then_subheaders; [apply render_involved_subheaders|].
  apply render_sources_subheaders.
Qed.

(** When [render_timeline] ends normally it has called [st.subheader] once
    per event, in the order [sorted] gives, with the date of the event or
    "Unknown date" for an event that has none. *)
Theorem render_timeline_headers (py_str : value -> string)
    (people events : list dict) (calls : list ui) :
  render_timeline py_str people events = (calls, Done ()) ->
  exists sorted,
    sorted_events events = Done sorted /\
    subheaders calls =
    map (fun e => get_default e "date" (VStr "Unknown date")) sorted.
Proof.
  unfold render_timeline.
  destruct (sorted_events events) as [sorted| |]; simpl; try discriminate.
  intros H. exists sorted. split; [done|].
  revert calls H. induction sorted as [|e sorted IH]; intros calls; simpl.
  - by intros [= <-].
  - intros (c1 & c2 & u1 & He & Hrest & ->)%and_then_done.
    rewrite subheaders_app, (IH c2 Hrest).
    pose proof (render_event_subheaders py_str people e) as Hs.
    rewrite He in Hs. simpl in Hs. by rewrite Hs.
Qed.

Example render_timeline_sample :
  render_timeline str_sample [ann; bob] [event_a; event_b] =
  ([Subheader (VStr "1850-05-05"); Markdown "**B**"; Write (VStr "");
    Subheader (VStr "1900-01-01"); Markdown "**A**"; Write (VStr "")],
   Done ()).
Proof. vm_compute. reflexivity. Qed.

Lemma render_timeline_headers_witness :
  exists sorted,
    sorted_events [event_a; event_b] = Done sorted /\
    subheaders [Subheader (VStr "1850-05-05"); Markdown "**B**";
                Write (VStr ""); Subheader (VStr "1900-01-01");
                Markdown "**A**"; Write (VStr "")] =
    map (fun e => get_default e "date" (VStr "Unknown date")) sorted.
Proof.
  exact (render_timeline_headers str_sample [ann; bob] [event_a; event_b] _
           render_timeline_sample).
Defined.

(** The links of the people involved in an event are those [link_person]
    gives for the identifiers that resolve, in their order; an identifier
    that resolves to no record gets no entry at all, where the profile page
    would show the raw identifier. *)
Theorem involved_links_resolved (py_str : value -> string)
    (people : list dict) (pids links : list string) :
  involved_links py_str people pids = Done links ->
  Forall2 (fun pid link => link_person py_str people pid = Done link)
    (filter (fun pid => is_Some (get_person_by_id people pid)) pids) links.
Proof.
  revert links. induction pids as [|pid pids IH]; intros links; simpl.
  - intros [= <-]. constructor.
  - destruct (get_person_by_id people pid) as [person|] eqn:Hget.
    + rewrite bool_decide_eq_false_2 by eauto using found_nonempty.
      rewrite filter_cons_True by (simpl; rewrite Hget; eauto).
      pose proof (link_person_found py_str _ _ _ Hget) as Hlink.
      apply get_person_by_id_elem in Hget as [_ Hid].
      rewrite (index_some _ _ _ Hid). simpl.
      destruct (person !! "full_name") as [name|] eqn:Hn;
        [rewrite (index_some _ _ _ Hn)|by rewrite (index_none _ _ Hn)].
      simpl. destruct (involved_links py_str people pids) as [r| |];
        simpl; try discriminate.
      intros [= <-]. constructor; [|by apply IH].
      rewrite Hlink, (index_some _ _ _ Hn). done.
    + rewrite filter_cons_False; [apply IH|].
      simpl. rewrite Hget. by intros [? ?].
Qed.

Example involved_links_sample :
  involved_links str_sample [ann; bob] ["p1"; "zz"; "p2"] =
  Done ["[Ann](?profile=p1)"; "[Bob](?profile=p2)"].
Proof. vm_compute. reflexivity. Qed.

Lemma involved_links_resolved_witness :
  Forall2 (fun pid link => link_person str_sample [ann; bob] pid = Done link)
    (filter (fun pid => is_Some (get_person_by_id [ann; bob] pid))
       ["p1"; "zz"; "p2"])
    ["[Ann](?profile=p1)"; "[Bob](?profile=p2)"].
Proof.
  exact (involved_links_resolved str_sample [ann; bob] _ _
           involved_links_sample).
Defined.







Example render_timeline_carl :
  render_timeline str_sample [carl] [event_with_carl] =
  ([Subheader (VStr "1900-01-01"); Markdown "**Untitled event**";
    Write (VStr "")], Raised (KeyError "full_name")).
Proof. vm_compute. reflexivity. Qed.


(** * Completeness of the tree builder under a deep bound *)

Section deep_bound.

Variable people : list dict.
Variable start : string.
Variable max_generations : Z.

Hypothesis deep :
  Z.of_nat (size (known_ids people start)) <= max_generations + 1.

(** Under a bound as deep as there are known identifiers, a call on a known
    identifier at a generation no larger than the number of identifiers
    visited so far leaves the identifier visited, and every identifier it
    newly visits has all its parents visited when it returns. *)
Lemma add_node_closed (fuel : nat) :
  forall pid g st st',
    add_node people max_generations fuel pid g st = Done st' ->
    visited st ⊆ known_ids people start ->
    pid ∈ known_ids people start ->
    g <= Z.of_nat (size (visited st)) ->
    pid ∈ visited st' /\
    visited st' ⊆ known_ids people start /\
    forall n t, n ∈ visited st' -> n ∉ visited st ->
                t ∈ parents_of people n -> t ∈ visited st'.
Proof.
  induction fuel as [|fuel IH]; intros pid g st st' H Hsub Hpid Hg;
    [discriminate|].
  apply add_node_cases in H
    as [[-> [Hv|Hlt]]|(Hv & _ & [[Hget ->]|(person & label & Hget & _ & _ & Hloop)])].
  - done.
  - destruct (decide (pid ∈ visited st)) as [Hv|Hv]; [done|]. exfalso.
    assert (size (visited st) < size (known_ids people start))%nat.
    { apply subset_size. split; [done|]. set_solver. }
    lia.
  - simpl. split; [set_solver|]. split; [set_solver|].
    intros n t Hn Hnot. assert (n = pid) as -> by set_solver.
    unfold parents_of. rewrite Hget. by intros ?%elem_of_nil.
  - assert (forall x, x ∈ parent_ids person -> x ∈ known_ids people start)
      as Hknown.
    { intros x Hx. apply (parent_ids_known people start person); [|done].
      by apply get_person_by_id_elem in Hget as [? _]. }
    assert (size ({[pid]} ∪ visited st) = S (size (visited st))) as Hsize.
    { rewrite size_union by set_solver. by rewrite size_singleton. }
    cut (({[pid]} ∪ visited st ⊆ visited st' /\
          visited st' ⊆ known_ids people start /\
          forall n t, n ∈ visited st' -> n ∉ visited st -> n <> pid ->
                      t ∈ parents_of people n -> t ∈ visited st') /\
         forall x, x ∈ parent_ids person -> x ∈ visited st').
    { intros [(Hin & Hk & Hclosed) Hps]. split; [set_solver|]. split; [done|].
      intros n t Hn Hnot Ht. destruct (decide (n = pid)) as [->|Hne].
      - apply Hps. unfold parents_of in Ht. by rewrite Hget in Ht.
      - by apply (Hclosed n). }
    revert Hloop.
    apply (for_each_ind _
      (fun done s =>
         ({[pid]} ∪ visited st ⊆ visited s /\
          visited s ⊆ known_ids people start /\
          forall n t, n ∈ visited s -> n ∉ visited st -> n <> pid ->
                      t ∈ parents_of people n -> t ∈ visited s) /\
         forall x, x ∈ done -> x ∈ visited s)).
    + simpl. split; [|by intros x ?%elem_of_nil]. split; [done|].
      split; [set_solver|]. intros n t Hn Hnot Hne. set_solver.
    + intros done x rest s1 s2 Heq [(Hin & Hk & Hclosed) Hdone] Hrun.
      rewrite visit_parent_eq in Hrun.
      pose proof (add_node_grows _ _ _ _ _ _ _ Hrun) as (Hmono & _).
      simpl in Hmono.
      destruct (IH _ _ _ _ Hrun) as (Hx & Hk2 & Hnew).
      * done.
      * apply Hknown. rewrite Heq. apply elem_of_app. right. left.
      * simpl.
        assert (size ({[pid]} ∪ visited st) <= size (visited s1))%nat
          by by apply subseteq_size.
        lia.
      * split; [split; [set_solver|split; [done|]]|].
        -- intros n t Hn Hnot Hne Ht.
           destruct (decide (n ∈ visited s1)) as [Hold|Hfresh].
           ++ apply Hmono. by apply (Hclosed n).
           ++ by apply (Hnew n).
        -- intros y [Hy| ->%list_elem_of_singleton]%elem_of_app;
             [apply Hmono; auto|done].
Qed.

End deep_bound.

(** With a generation bound at least the number of known identifiers (less
    one), the graph returned has a node for the start person and for every
    identifier reached from it by parent hops: the bound cuts nothing off. *)
Theorem build_graph_complete (people : list dict) (start_id : string)
    (max_generations : Z) (g : list stmt) :
  Z.of_nat (size (known_ids people start_id)) <= max_generations + 1 ->
  build_graph people start_id max_generations = Done g ->
  start_id ∈ node_names g /\
  forall k n, lineage people start_id k n -> n ∈ node_names g.
Proof.
  intros Hdeep (st & Hrun & -> & Hinv)%build_graph_done.
  destruct (add_node_closed people start_id max_generations Hdeep _ _ _ _ _ Hrun)
    as (Hstart & _ & Hclosed).
  { simpl. set_solver. }
  { unfold known_ids. set_solver. }
  { simpl. lia. }
  split; [by apply (inv_nodes _ _ Hinv)|].
  intros k n Hlin. apply (inv_nodes _ _ Hinv).
  induction Hlin as [|k pid person parent _ IH Hget Hparent]; [done|].
  apply (Hclosed pid); [done|simpl; set_solver|].
  unfold parents_of. by rewrite Hget.
Qed.

Lemma known_ids_pair : size (known_ids [ann; bob] "p1") = 2%nat.
Proof. vm_compute. reflexivity. Qed.

Lemma build_graph_complete_witness :
  "p1" ∈ node_names [Attr "rankdir" "TB"; Node "p1" (VStr "Ann");
                     Edge "p2" "p1"; Node "p2" (VStr "Bob")] /\
  forall k n, lineage [ann; bob] "p1" k n ->
    n ∈ node_names [Attr "rankdir" "TB"; Node "p1" (VStr "Ann");
                    Edge "p2" "p1"; Node "p2" (VStr "Bob")].
Proof.
  apply (build_graph_complete [ann; bob] "p1" 5).
  - rewrite known_ids_pair. lia.
  - exact build_graph_sample.
Defined.

(** [get_person_by_id] on two collections put one after the other looks in
    the first and, only if that finds nothing, in the second. *)
Theorem get_person_by_id_app (people more : list dict) (pid : string) :
  get_person_by_id (people ++ more) pid =
  match get_person_by_id people pid with
  | Some p => Some p
  | None => get_person_by_id more pid
  end.
Proof.
  induction people as [|p people IH]; simpl; [done|].
  by destruct (get_equals p "id" pid).
Qed.
